(** * Address-change case workflow (src/main.py)

    A shallow embedding of the in-memory case store and of the workflow
    tools of [src/main.py], together with the properties of the case
    record, the human-in-the-loop override and the audit trail.

    Python dictionaries that are only indexed by literal keys of a fixed
    shape (the case record, the OCR result) are records; dictionaries
    whose content is data (intake payload, extracted fields, working and
    override values, audit details, tool results) are ordered association
    lists with Python's lookup and item-assignment; the global [cases]
    dictionary is a finite map.  The audit list of a case is a mutable
    list object that is shared between the case record and whoever holds
    a reference to it, so it lives in an explicit object heap.  Python
    exceptions do not roll the store back, so a failing call returns the
    store as it was when the exception was raised. *)

From Stdlib Require Import PrimFloat Ascii DecimalString DecimalNat.
From stdpp Require Import gmap strings list.

Set Warnings "-inexact-float,-register-all".
Open Scope string_scope.
Open Scope list_scope.

(** ** Python values *)

Definition loc := positive.

Inductive pyval : Type :=
  | PNone
  | PBool (b : bool)
  | PStr (s : string)
  | PFloat (x : float)
  | PList (l : list pyval)
  | PDict (d : list (string * pyval))
  | PRef (l : loc).

Abbreviation pydict := (list (string * pyval)).

Inductive exn : Type :=
  | KeyError (key : string)
  | TypeError (msg : string).

(** [d[k]] as an expression: [None] stands for Python's [KeyError]. *)
Fixpoint dict_get (k : string) (d : pydict) : option pyval :=
  match d with
  | [] => None
  | (k', v) :: d' => if decide (k = k') then Some v else dict_get k d'
  end.

(** [d[k] = v]: an existing key keeps its position, a new key goes last. *)
Fixpoint dict_set (k : string) (v : pyval) (d : pydict) : pydict :=
  match d with
  | [] => [(k, v)]
  | (k', v') :: d' =>
      if decide (k = k') then (k, v) :: d' else (k', v') :: dict_set k v d'
  end.

(** ** The case record and the store *)

Record OCR := mkOCR {
  fields : pydict;
  confidence : list (string * float);
}.

Record Case := mkCase {
  data : pydict;
  ocr : option OCR;
  status : string;
  audit : loc;
  overrides : pydict;
  working : pydict;
}.

Definition set_ocr (o : OCR) (c : Case) : Case :=
  mkCase (data c) (Some o) (status c) (audit c) (overrides c) (working c).

Definition set_working (w : pydict) (c : Case) : Case :=
  mkCase (data c) (ocr c) (status c) (audit c) (overrides c) w.

Definition set_overrides (o : pydict) (c : Case) : Case :=
  mkCase (data c) (ocr c) (status c) (audit c) o (working c).

(** [cases] is the module-level dictionary; [heap] holds the audit list
    objects, addressed by the reference stored in each case record. *)
Record Store := mkStore {
  cases : gmap string Case;
  heap : gmap loc (list pyval);
}.

Definition empty_store : Store := mkStore ∅ ∅.

(** ** State and exceptions *)

Definition M (A : Type) : Type := Store → Store * (exn + A).

#[global] Instance M_ret : MRet M := λ A x st, (st, inr x).

#[global] Instance M_bind : MBind M := λ A B f m st,
  match m st with
  | (st', inr x) => f x st'
  | (st', inl e) => (st', inl e)
  end.

Definition raise {A} (e : exn) : M A := λ st, (st, inl e).

Definition lift_key {A} (k : string) (o : option A) : M A :=
  match o with
  | Some x => mret x
  | None => raise (KeyError k)
  end.

(** [cases[case_id]] *)
Definition get_case (case_id : string) : M Case := λ st,
  lift_key case_id (cases st !! case_id) st.

(** [len(cases)] *)
Definition len_cases : M nat := λ st, (st, inr (size (cases st))).

(** [cases[case_id] = c] *)
Definition put_case (case_id : string) (c : Case) : M unit := λ st,
  (mkStore (<[case_id := c]> (cases st)) (heap st), inr tt).

(** [case[key] = ...] on the record that [cases[case_id]] refers to. *)
Definition update_case (case_id : string) (f : Case → Case) : M unit := λ st,
  (mkStore (alter f case_id (cases st)) (heap st), inr tt).

(** A new, empty list object: the literal [[]]. *)
Definition new_list : M loc := λ st,
  let l := fresh (dom (heap st)) in
  (mkStore (cases st) (<[l := []]> (heap st)), inr l).

(** [l.append(x)] on the list object at [l]. *)
Definition list_append (l : loc) (x : pyval) : M unit := λ st,
  (mkStore (cases st) (alter (λ xs, xs ++ [x]) l (heap st)), inr tt).

(** The store after [l.append(x)]. *)
Definition appended (l : loc) (x : pyval) (st : Store) : Store :=
  mkStore (cases st) (alter (λ xs, xs ++ [x]) l (heap st)).

(** ** Helper and mock data *)

Definition DEMO_PAYLOAD : pydict :=
  [ ("citizen_name", PStr "John Doe");
    ("citizen_dob", PStr "1998-04-12");
    ("old_address", PStr "Altstrasse 5, 67655 Kaiserslautern");
    ("new_address_raw", PStr "Musterstr 12a KL 12345");
    ("move_in_date_raw", PStr "2025-10-01");
    ("landlord_doc_path", PStr "/tmp/landlord_confirmation.pdf");
    ("id_doc_path", PStr "/tmp/passport_scan.pdf") ].

(** The dictionary appended by [_audit]; [ts] is the reading of
    [datetime.utcnow().isoformat()] at the call. *)
Definition audit_entry (ts event : string) (details : pyval) : pyval :=
  PDict [("ts", PStr ts); ("event", PStr event); ("details", details)].

Definition _audit (case_id event : string) (details : pyval) (ts : string)
    : M unit :=
  c ← get_case case_id;
  list_append (audit c) (audit_entry ts event details).

(** The format specification [04d]: decimal, zero-padded to width 4. *)
Definition format_04d (n : nat) : string :=
  let s := NilZero.string_of_uint (Nat.to_uint n) in
  String.concat "" (replicate (4 - String.length s) "0") +:+ s.

(** ** Tools (workflow) *)

(** [f"CASE-{len(cases)+1:04d}"] *)
Definition new_case_id (st : Store) : string :=
  "CASE-" +:+ format_04d (size (cases st) + 1).

Definition created_entry (ts : string) : pyval :=
  audit_entry ts "ingest_case" (PStr "Case created with citizen data.").

Definition ingest_case (data : pydict) (ts : string) : M pyval :=
  n ← len_cases;
  let case_id := "CASE-" +:+ format_04d (n + 1) in
  l ← new_list;
  put_case case_id (mkCase data None "created" l [] []);;
  _audit case_id "ingest_case" (PStr "Case created with citizen data.") ts;;
  mret (PDict [("case_id", PStr case_id); ("message", PStr "Case created.")]).

(** The policy constants of the completeness and identity checks. *)
Definition CONFIDENCE_THRESHOLD : float := 0.8%float.
Definition MATCH_THRESHOLD : float := 0.9%float.

Definition run_ocr_extract (case_id ts : string) : M pyval :=
  case ← get_case case_id;
  citizen_name ← lift_key "citizen_name" (dict_get "citizen_name" (data case));
  citizen_dob ← lift_key "citizen_dob" (dict_get "citizen_dob" (data case));
  old_address ← lift_key "old_address" (dict_get "old_address" (data case));
  new_address ← lift_key "new_address_raw" (dict_get "new_address_raw" (data case));
  move_in_date ← lift_key "move_in_date_raw" (dict_get "move_in_date_raw" (data case));
  let extracted : pydict :=
    [ ("citizen_name", citizen_name);
      ("citizen_dob", citizen_dob);
      ("old_address", old_address);
      ("new_address", new_address);
      ("move_in_date", move_in_date);
      ("landlord_signature_found", PBool true) ] in
  let confidence := [("new_address", 0.73%float); ("move_in_date", 0.9%float)] in
  update_case case_id (set_ocr (mkOCR extracted confidence));;
  new_address' ← lift_key "new_address" (dict_get "new_address" extracted);
  move_in_date' ← lift_key "move_in_date" (dict_get "move_in_date" extracted);
  update_case case_id
    (set_working [("new_address", new_address'); ("move_in_date", move_in_date')]);;
  _audit case_id "run_ocr_extract"
    (PDict [("low_conf", PList [PStr "new_address"])]) ts;;
  mret (PDict [ ("extracted_fields", PDict extracted);
                ("confidence", PDict (prod_map id PFloat <$> confidence)) ]).

(** [[k for k, v in confidence.items() if v < 0.8]] *)
Definition low_conf_keys (confidence : list (string * float)) : list string :=
  fst <$> List.filter (λ kv, PrimFloat.ltb (snd kv) CONFIDENCE_THRESHOLD) confidence.

(** Truthiness of a list: non-empty. *)
Definition truthy {A} (l : list A) : bool :=
  match l with [] => false | _ :: _ => true end.

Definition check_completeness (case_id ts : string) : M pyval :=
  case ← get_case case_id;
  o ← match ocr case with
      | Some o => mret o
      | None => raise (TypeError "'NoneType' object is not subscriptable")
      end;
  let low_conf := low_conf_keys (confidence o) in
  let status := if truthy low_conf then "hitl_required" else "ok" in
  _audit case_id "check_completeness"
    (PDict [("status", PStr status); ("low_conf", PList (PStr <$> low_conf))]) ts;;
  mret (PDict [("status", PStr status); ("low_conf_fields", PList (PStr <$> low_conf))]).

Definition resolve_hitl_update_address (case_id corrected_address ts : string)
    : M pyval :=
  case ← get_case case_id;
  old_addr ← lift_key "new_address" (dict_get "new_address" (working case));
  update_case case_id
    (λ c, set_working (dict_set "new_address" (PStr corrected_address) (working c)) c);;
  update_case case_id
    (λ c, set_overrides (dict_set "new_address" (PStr corrected_address) (overrides c)) c);;
  _audit case_id "resolve_hitl_update_address"
    (PDict [ ("old_address", old_addr);
             ("corrected_address", PStr corrected_address);
             ("source", PStr "human_officer") ]) ts;;
  mret (PDict [ ("message", PStr "Address override applied");
                ("case_id", PStr case_id);
                ("old_address", old_addr);
                ("new_address", PStr corrected_address);
                ("next_step_hint",
                 PStr "You can now continue with match_registry_identity, etc.") ]).

Definition match_registry_identity (case_id ts : string) : M pyval :=
  let score := 0.94%float in
  let status := if PrimFloat.ltb MATCH_THRESHOLD score then "match" else "mismatch" in
  _audit case_id "match_registry_identity"
    (PDict [("score", PFloat score); ("status", PStr status)]) ts;;
  mret (PDict [ ("status", PStr status); ("score", PFloat score);
                ("hitl_required", PBool (negb (String.eqb status "match"))) ]).

Definition validate_landlord_confirmation (case_id ts : string) : M pyval :=
  let valid := true in
  let status := if valid then "valid" else "invalid" in
  _audit case_id "validate_landlord_confirmation" (PDict [("status", PStr status)]) ts;;
  mret (PDict [("status", PStr status); ("hitl_required", PBool (negb valid))]).

Definition canonicalize_address (case_id ts : string) : M pyval :=
  case ← get_case case_id;
  input_addr ← lift_key "new_address" (dict_get "new_address" (working case));
  let canonical :=
    PDict [ ("input", input_addr);
            ("street", PStr "MusterstraÃŸe");
            ("house_number", PStr "12A");
            ("postal_code", PStr "12345");
            ("city", PStr "Kaiserslautern") ] in
  let ambiguous := false in
  let status := if negb ambiguous then "ok" else "ambiguous" in
  _audit case_id "canonicalize_address" (PDict [("status", PStr status)]) ts;;
  mret (PDict [ ("status", PStr status); ("canonical_address", canonical);
                ("hitl_required", PBool ambiguous) ]).

Definition check_business_rules (case_id ts : string) : M pyval :=
  let violations : list string := [] in
  let status := if negb (truthy violations) then "pass" else "fail" in
  _audit case_id "check_business_rules" (PDict [("status", PStr status)]) ts;;
  mret (PDict [ ("status", PStr status); ("violations", PList (PStr <$> violations));
                ("hitl_required", PBool (truthy violations)) ]).

Definition update_registry (case_id ts : string) : M pyval :=
  let conflict := false in
  let status := if negb conflict then "updated" else "conflict" in
  _audit case_id "update_registry" (PDict [("status", PStr status)]) ts;;
  mret (PDict [("status", PStr status); ("hitl_required", PBool conflict)]).

Definition generate_certificate (case_id ts : string) : M pyval :=
  let path := "/tmp/" +:+ case_id +:+ "_meldebescheinigung.pdf" in
  _audit case_id "generate_certificate" (PDict [("path", PStr path)]) ts;;
  mret (PDict [("status", PStr "generated"); ("certificate_path", PStr path)]).

Definition notify_citizen (case_id ts : string) : M pyval :=
  _audit case_id "notify_citizen" (PDict [("sent_to", PStr "citizen@example.com")]) ts;;
  mret (PDict [("status", PStr "sent"); ("email", PStr "citizen@example.com")]).

(** [audit] is bound to the list object itself, not to a copy of it: the
    result carries the reference. *)
Definition close_case_and_audit (case_id ts : string) : M pyval :=
  case ← get_case case_id;
  let audit_ref := audit case in
  _audit case_id "close_case_and_audit" (PStr "Case closed.") ts;;
  mret (PDict [("status", PStr "closed"); ("audit_log", PRef audit_ref)]).

(** What a holder of a value sees when it reads it: a reference to a list
    object shows the current content of that object. *)
Definition deref (st : Store) (v : pyval) : option (list pyval) :=
  match v with
  | PRef l => heap st !! l
  | PList xs => Some xs
  | _ => None
  end.

(** ** Records written by the tools

    The case record after a successful extraction, and after an override,
    and the audit entries the two tools append. *)

Definition extracted_dict (name dob old new move_in : pyval) : pydict :=
  [ ("citizen_name", name);
    ("citizen_dob", dob);
    ("old_address", old);
    ("new_address", new);
    ("move_in_date", move_in);
    ("landlord_signature_found", PBool true) ].

Definition extracted_case (c : Case) (name dob old new move_in : pyval) : Case :=
  mkCase (data c)
    (Some (mkOCR (extracted_dict name dob old new move_in)
                 [("new_address", 0.73%float); ("move_in_date", 0.9%float)]))
    (status c) (audit c) (overrides c)
    [("new_address", new); ("move_in_date", move_in)].

Definition extract_entry (ts : string) : pyval :=
  audit_entry ts "run_ocr_extract" (PDict [("low_conf", PList [PStr "new_address"])]).

Definition overridden_case (c : Case) (v : string) : Case :=
  mkCase (data c) (ocr c) (status c) (audit c)
    (dict_set "new_address" (PStr v) (overrides c))
    (dict_set "new_address" (PStr v) (working c)).

Definition override_entry (ts : string) (old : pyval) (v : string) : pyval :=
  audit_entry ts "resolve_hitl_update_address"
    (PDict [ ("old_address", old);
             ("corrected_address", PStr v);
             ("source", PStr "human_officer") ]).

Definition close_entry (ts : string) : pyval :=
  audit_entry ts "close_case_and_audit" (PStr "Case closed.").

(** ** Calls and reachable stores

    One constructor per tool that reads or writes a case.  The
    [debug_get_all] tool and the prompt and resource functions do not
    touch the store and are left out. *)

Inductive Call : Type :=
  | CIngest (data : pydict)
  | CRunOcrExtract (case_id : string)
  | CCheckCompleteness (case_id : string)
  | CResolveHitl (case_id corrected_address : string)
  | CMatchRegistryIdentity (case_id : string)
  | CValidateLandlord (case_id : string)
  | CCanonicalizeAddress (case_id : string)
  | CCheckBusinessRules (case_id : string)
  | CUpdateRegistry (case_id : string)
  | CGenerateCertificate (case_id : string)
  | CNotifyCitizen (case_id : string)
  | CCloseCase (case_id : string).

Definition exec (call : Call) (ts : string) : M pyval :=
  match call with
  | CIngest d => ingest_case d ts
  | CRunOcrExtract i => run_ocr_extract i ts
  | CCheckCompleteness i => check_completeness i ts
  | CResolveHitl i a => resolve_hitl_update_address i a ts
  | CMatchRegistryIdentity i => match_registry_identity i ts
  | CValidateLandlord i => validate_landlord_confirmation i ts
  | CCanonicalizeAddress i => canonicalize_address i ts
  | CCheckBusinessRules i => check_business_rules i ts
  | CUpdateRegistry i => update_registry i ts
  | CGenerateCertificate i => generate_certificate i ts
  | CNotifyCitizen i => notify_citizen i ts
  | CCloseCase i => close_case_and_audit i ts
  end.

(** The case identifier a call takes, if it takes one. *)
Definition call_case_id (call : Call) : option string :=
  match call with
  | CIngest _ => None
  | CRunOcrExtract i | CCheckCompleteness i | CResolveHitl i _
  | CMatchRegistryIdentity i | CValidateLandlord i | CCanonicalizeAddress i
  | CCheckBusinessRules i | CUpdateRegistry i | CGenerateCertificate i
  | CNotifyCitizen i | CCloseCase i => Some i
  end.

(** The stores the process can be in: the empty module-level dictionary
    followed by any sequence of tool calls, failing ones included. *)
Inductive reachable : Store → Prop :=
  | reachable_init : reachable empty_store
  | reachable_step st call ts :
      reachable st → reachable (fst (exec call ts st)).

(** Every case refers to a live audit list, its status is the one given
    at creation, and its working view exists exactly when extraction has
    run. *)
Definition case_ok (st : Store) (c : Case) : Prop :=
  is_Some (heap st !! audit c)
  ∧ status c = "created"
  ∧ match ocr c with
    | None => working c = [] ∧ overrides c = []
    | Some _ => is_Some (dict_get "new_address" (working c))
    end.

Definition store_ok (st : Store) : Prop :=
  ∀ i c, cases st !! i = Some c → case_ok st c.

(** ** What a call does to the record it names

    [call_event] is the event name a tool passes to [_audit];
    [case_step call c c'] relates the record of the named case before and
    after a successful call. *)

Definition call_event (call : Call) : string :=
  match call with
  | CIngest _ => "ingest_case"
  | CRunOcrExtract _ => "run_ocr_extract"
  | CCheckCompleteness _ => "check_completeness"
  | CResolveHitl _ _ => "resolve_hitl_update_address"
  | CMatchRegistryIdentity _ => "match_registry_identity"
  | CValidateLandlord _ => "validate_landlord_confirmation"
  | CCanonicalizeAddress _ => "canonicalize_address"
  | CCheckBusinessRules _ => "check_business_rules"
  | CUpdateRegistry _ => "update_registry"
  | CGenerateCertificate _ => "generate_certificate"
  | CNotifyCitizen _ => "notify_citizen"
  | CCloseCase _ => "close_case_and_audit"
  end.

Definition case_step (call : Call) (c c' : Case) : Prop :=
  match call with
  | CRunOcrExtract _ =>
      ∃ name dob old new move_in,
        dict_get "citizen_name" (data c) = Some name
        ∧ dict_get "citizen_dob" (data c) = Some dob
        ∧ dict_get "old_address" (data c) = Some old
        ∧ dict_get "new_address_raw" (data c) = Some new
        ∧ dict_get "move_in_date_raw" (data c) = Some move_in
        ∧ c' = extracted_case c name dob old new move_in
  | CResolveHitl _ v =>
      is_Some (dict_get "new_address" (working c)) ∧ c' = overridden_case c v
  | _ => c' = c
  end.

(** The intake keys that [run_ocr_extract] reads, in the order it reads
    them. *)
Definition extraction_keys : list string :=
  ["citizen_name"; "citizen_dob"; "old_address"; "new_address_raw";
   "move_in_date_raw"].

(** [f"CASE-{k:04d}"] *)
Definition case_id_of (k : nat) : string := "CASE-" +:+ format_04d k.

(** Reading a decimal numeral back, leading zeros allowed. *)
Definition decode_decimal (s : string) : option nat :=
  Nat.of_uint <$> NilEmpty.uint_of_string s.

(** ** Invariants of reachable stores *)

(** The identifiers in use are those of the first [len(cases)] numbers. *)
Definition ids_ok (st : Store) : Prop :=
  ∀ i, is_Some (cases st !! i)
       ↔ ∃ k : nat, (1 ≤ k ≤ size (cases st))%nat ∧ i = case_id_of k.

(** No two cases share an audit list object. *)
Definition audit_inj (st : Store) : Prop :=
  ∀ i j ci cj,
    cases st !! i = Some ci → cases st !! j = Some cj →
    audit ci = audit cj → i = j.

(** The shape of a case record: before extraction the working view and
    the overrides are empty; after it, the extraction mirrors the intake,
    the confidences are the two constants, the working view has exactly
    the two work-relevant fields, and the only field that is ever
    overridden is the new address. *)
Definition case_wf (c : Case) : Prop :=
  match ocr c with
  | None => working c = [] ∧ overrides c = []
  | Some o =>
      ∃ name dob old new move_in w,
        dict_get "citizen_name" (data c) = Some name
        ∧ dict_get "citizen_dob" (data c) = Some dob
        ∧ dict_get "old_address" (data c) = Some old
        ∧ dict_get "new_address_raw" (data c) = Some new
        ∧ dict_get "move_in_date_raw" (data c) = Some move_in
        ∧ o = mkOCR (extracted_dict name dob old new move_in)
                    [("new_address", 0.73%float); ("move_in_date", 0.9%float)]
        ∧ working c = [("new_address", w); ("move_in_date", move_in)]
        ∧ (overrides c = [] ∧ w = new
           ∨ ∃ v, overrides c = [("new_address", PStr v)]
                  ∧ (w = PStr v ∨ w = new))
  end.

(** Every audit list starts with the creation entry of its case. *)
Definition log_ok (st : Store) (c : Case) : Prop :=
  ∃ ts rest, heap st !! audit c = Some (created_entry ts :: rest).

Definition store_wf (st : Store) : Prop :=
  ids_ok st
  ∧ audit_inj st
  ∧ ∀ i c, cases st !! i = Some c →
           status c = "created" ∧ case_wf c ∧ log_ok st c.

(** The steps that take no decision from the case record: they audit and
    return. *)
Definition unconditional_step (call : Call) : bool :=
  match call with
  | CMatchRegistryIdentity _ | CValidateLandlord _ | CCheckBusinessRules _
  | CUpdateRegistry _ | CGenerateCertificate _ | CNotifyCitizen _
  | CCloseCase _ => true
  | _ => false
  end.


(** An intake without the new address and the move-in date. *)
Definition PARTIAL_PAYLOAD : pydict :=
  [ ("citizen_name", PStr "John Doe");
    ("citizen_dob", PStr "1998-04-12");
    ("old_address", PStr "Altstrasse 5, 67655 Kaiserslautern") ].

Definition demo_partial : Store :=
  fst (exec (CIngest PARTIAL_PAYLOAD) "2025-10-04T08:00:00" empty_store).

(** ** A concrete run

    The demo intake, extracted, corrected by an officer, then extracted
    once more. *)

Definition RAW_ADDRESS : string := "Musterstr 12a KL 12345".
Definition CORRECTED_ADDRESS : string := "Musterstraße 12a, 12345 Kaiserslautern".

Definition demo_created : Store :=
  fst (exec (CIngest DEMO_PAYLOAD) "2025-10-02T09:00:00" empty_store).

Definition demo_extracted : Store :=
  fst (exec (CRunOcrExtract "CASE-0001") "2025-10-02T09:00:01" demo_created).

Definition demo_overridden : Store :=
  fst (exec (CResolveHitl "CASE-0001" CORRECTED_ADDRESS) "2025-10-02T09:05:00"
         demo_extracted).

Definition demo_reextracted : Store :=
  fst (exec (CRunOcrExtract "CASE-0001") "2025-10-02T09:06:00" demo_overridden).

Definition demo_two_cases : Store :=
  fst (exec (CIngest DEMO_PAYLOAD) "2025-10-03T08:00:00" demo_overridden).

(** ** Sanity checks on concrete runs *)

Example format_04d_7 : format_04d 7 = "0007".
Proof. reflexivity. Qed.

Example format_04d_1234 : format_04d 1234 = "1234".
Proof. reflexivity. Qed.

Example ingest_first :
  snd (ingest_case DEMO_PAYLOAD "t0" empty_store)
  = inr (PDict [("case_id", PStr "CASE-0001"); ("message", PStr "Case created.")]).
Proof. vm_compute. reflexivity. Qed.

(** ** Equations of the primitive operations *)

Lemma alter_lookup_insert {K A} `{Countable K} (f : A → A) (m : gmap K A) i x :
  m !! i = Some x → alter f i m = <[i := f x]> m.
Proof.
  intros Hi. apply map_eq. intros j. destruct (decide (i = j)) as [<-|Hne].
  - by rewrite lookup_alter_eq, lookup_insert_eq, Hi.
  - by rewrite lookup_alter_ne, lookup_insert_ne.
Qed.

Lemma bind_inr {A B} (m : M A) (f : A → M B) st st' x :
  m st = (st', inr x) → (m ≫= f) st = f x st'.
Proof. intros Hm. unfold mbind, M_bind. by rewrite Hm. Qed.

Lemma bind_inl {A B} (m : M A) (f : A → M B) st st' e :
  m st = (st', inl e) → (m ≫= f) st = (st', inl e).
Proof. intros Hm. unfold mbind, M_bind. by rewrite Hm. Qed.

Lemma get_case_Some st i c :
  cases st !! i = Some c → get_case i st = (st, inr c).
Proof. intros Hi. unfold get_case. by rewrite Hi. Qed.

Lemma get_case_None st i :
  cases st !! i = None → get_case i st = (st, inl (KeyError i)).
Proof. intros Hi. unfold get_case. by rewrite Hi. Qed.

Lemma audit_Some st i c ev d ts :
  cases st !! i = Some c →
  _audit i ev d ts st = (appended (audit c) (audit_entry ts ev d) st, inr tt).
Proof. intros Hi. unfold _audit. by rewrite (bind_inr _ _ _ _ _ (get_case_Some _ _ _ Hi)). Qed.

Lemma audit_None st i ev d ts :
  cases st !! i = None → _audit i ev d ts st = (st, inl (KeyError i)).
Proof. intros Hi. unfold _audit. by rewrite (bind_inl _ _ _ _ _ (get_case_None _ _ Hi)). Qed.

Lemma appended_heap st l x xs :
  heap st !! l = Some xs → heap (appended l x st) !! l = Some (xs ++ [x]).
Proof. intros Hl. unfold appended. simpl. by rewrite lookup_alter_eq, Hl. Qed.

Lemma appended_heap_is_Some st l x l' :
  is_Some (heap st !! l') → is_Some (heap (appended l x st) !! l').
Proof. intros Hl. unfold appended. simpl. by apply lookup_alter_is_Some. Qed.

(** Rewriting a tool body along a run whose case lookups are known. *)
Ltac run_with Hi :=
  repeat first
    [ rewrite (bind_inr _ _ _ _ _ (get_case_Some _ _ _ Hi))
    | rewrite (bind_inl _ _ _ _ _ (get_case_None _ _ Hi))
    | rewrite (bind_inr _ _ _ _ _ (audit_Some _ _ _ _ _ _ Hi))
    | rewrite (bind_inl _ _ _ _ _ (audit_None _ _ _ _ _ Hi)) ].

(** ** Unknown case identifiers *)

Lemma exec_unknown_case call i ts st :
  call_case_id call = Some i →
  cases st !! i = None →
  exec call ts st = (st, inl (KeyError i)).
Proof.
  intros Hcall Hi.
  destruct call; simpl in Hcall; simplify_eq; simpl;
    unfold run_ocr_extract, check_completeness, resolve_hitl_update_address,
      match_registry_identity, validate_landlord_confirmation,
      canonicalize_address, check_business_rules, update_registry,
      generate_certificate, notify_citizen, close_case_and_audit;
    cbv zeta; by run_with Hi.
Qed.

(** ** Equations of the tools that write the case record *)

Lemma bind_lift_Some {A B} k (x : A) (f : A → M B) st :
  (lift_key k (Some x) ≫= f) st = f x st.
Proof. reflexivity. Qed.

Lemma bind_lift_None {A B} k (f : A → M B) st :
  (lift_key k None ≫= f) st = (st, inl (KeyError k)).
Proof. reflexivity. Qed.

Lemma bind_update_case {B} i g (f : unit → M B) st c :
  cases st !! i = Some c →
  (update_case i g ≫= f) st = f tt (mkStore (<[i := g c]> (cases st)) (heap st)).
Proof.
  intros Hi. unfold mbind, M_bind, update_case.
  by rewrite (alter_lookup_insert _ _ _ _ Hi).
Qed.

Lemma bind_len_cases {B} (f : nat → M B) st :
  (len_cases ≫= f) st = f (size (cases st)) st.
Proof. reflexivity. Qed.

Lemma bind_new_list {B} (f : loc → M B) st :
  (new_list ≫= f) st
  = f (fresh (dom (heap st)))
      (mkStore (cases st) (<[fresh (dom (heap st)) := []]> (heap st))).
Proof. reflexivity. Qed.

Lemma bind_put_case {B} i c (f : unit → M B) st :
  (put_case i c ≫= f) st = f tt (mkStore (<[i := c]> (cases st)) (heap st)).
Proof. reflexivity. Qed.

Lemma bind_mret {A B} (x : A) (f : A → M B) st : (mret x ≫= f) st = f x st.
Proof. reflexivity. Qed.

Lemma ingest_case_eq d ts st :
  ingest_case d ts st =
    (mkStore
       (<[new_case_id st := mkCase d None "created" (fresh (dom (heap st))) [] []]>
          (cases st))
       (<[fresh (dom (heap st)) := [created_entry ts]]> (heap st)),
     inr (PDict [ ("case_id", PStr (new_case_id st));
                  ("message", PStr "Case created.") ])).
Proof.
  unfold ingest_case. rewrite bind_len_cases. cbv zeta.
  rewrite bind_new_list, bind_put_case. fold (new_case_id st).
  erewrite bind_inr; [|apply audit_Some; simpl; apply lookup_insert_eq].
  unfold appended, mret, M_ret. simpl. by rewrite alter_insert_eq.
Qed.

Lemma run_ocr_extract_eq st i c ts name dob old new move_in :
  cases st !! i = Some c →
  dict_get "citizen_name" (data c) = Some name →
  dict_get "citizen_dob" (data c) = Some dob →
  dict_get "old_address" (data c) = Some old →
  dict_get "new_address_raw" (data c) = Some new →
  dict_get "move_in_date_raw" (data c) = Some move_in →
  run_ocr_extract i ts st =
    (appended (audit c) (extract_entry ts)
       (mkStore (<[i := extracted_case c name dob old new move_in]> (cases st))
                (heap st)),
     inr (PDict [ ("extracted_fields", PDict (extracted_dict name dob old new move_in));
                  ("confidence",
                   PDict [ ("new_address", PFloat 0.73);
                           ("move_in_date", PFloat 0.9) ]) ])).
Proof.
  intros Hi H1 H2 H3 H4 H5. unfold run_ocr_extract. run_with Hi.
  rewrite H1, H2, H3, H4, H5, !bind_lift_Some. cbv zeta.
  rewrite (bind_update_case _ _ _ _ _ Hi).
  change (dict_get "new_address" _) with (Some new) at 1.
  change (dict_get "move_in_date" _) with (Some move_in) at 1.
  rewrite !bind_lift_Some.
  erewrite bind_update_case; [|simpl; apply lookup_insert_eq].
  simpl cases. simpl heap. rewrite insert_insert_eq.
  erewrite bind_inr; [|apply audit_Some; simpl; apply lookup_insert_eq].
  reflexivity.
Qed.

Lemma resolve_hitl_update_address_eq st i c v ts old :
  cases st !! i = Some c →
  dict_get "new_address" (working c) = Some old →
  resolve_hitl_update_address i v ts st =
    (appended (audit c) (override_entry ts old v)
       (mkStore (<[i := overridden_case c v]> (cases st)) (heap st)),
     inr (PDict [ ("message", PStr "Address override applied");
                  ("case_id", PStr i);
                  ("old_address", old);
                  ("new_address", PStr v);
                  ("next_step_hint",
                   PStr "You can now continue with match_registry_identity, etc.") ])).
Proof.
  intros Hi Hold. unfold resolve_hitl_update_address. run_with Hi.
  rewrite Hold, bind_lift_Some.
  rewrite (bind_update_case _ _ _ _ _ Hi).
  erewrite bind_update_case; [|simpl; apply lookup_insert_eq].
  simpl cases. simpl heap. rewrite insert_insert_eq.
  erewrite bind_inr; [|apply audit_Some; simpl; apply lookup_insert_eq].
  reflexivity.
Qed.

Lemma resolve_hitl_update_address_missing st i c v ts :
  cases st !! i = Some c →
  dict_get "new_address" (working c) = None →
  resolve_hitl_update_address i v ts st = (st, inl (KeyError "new_address")).
Proof.
  intros Hi Hold. unfold resolve_hitl_update_address. run_with Hi.
  by rewrite Hold, bind_lift_None.
Qed.

Lemma close_case_and_audit_eq st i c ts :
  cases st !! i = Some c →
  close_case_and_audit i ts st =
    (appended (audit c) (close_entry ts) st,
     inr (PDict [("status", PStr "closed"); ("audit_log", PRef (audit c))])).
Proof.
  intros Hi. unfold close_case_and_audit. run_with Hi. cbv zeta. by run_with Hi.
Qed.

Lemma check_completeness_eq st i c o ts :
  cases st !! i = Some c →
  ocr c = Some o →
  let low_conf := low_conf_keys (confidence o) in
  let status := if truthy low_conf then "hitl_required" else "ok" in
  check_completeness i ts st =
    (appended (audit c)
       (audit_entry ts "check_completeness"
          (PDict [("status", PStr status); ("low_conf", PList (PStr <$> low_conf))]))
       st,
     inr (PDict [ ("status", PStr status);
                  ("low_conf_fields", PList (PStr <$> low_conf)) ])).
Proof.
  intros Hi Ho. unfold check_completeness. run_with Hi.
  rewrite Ho, bind_mret. cbv zeta. by run_with Hi.
Qed.

(** ** The store invariant *)

Ltac unknown_case call ts Hi :=
  let H := fresh in
  pose proof (exec_unknown_case call _ ts _ eq_refl Hi) as H;
  simpl in H; rewrite H.

Lemma case_ok_appended st l x c : case_ok st c → case_ok (appended l x st) c.
Proof.
  intros (Hh & Hs & Hw). repeat split; [|done..].
  by apply appended_heap_is_Some.
Qed.

Lemma store_ok_appended st l x : store_ok st → store_ok (appended l x st).
Proof. intros Hok i c Hi. apply case_ok_appended. by apply (Hok i). Qed.

Lemma store_ok_put st i c' :
  store_ok st → case_ok st c' →
  store_ok (mkStore (<[i := c']> (cases st)) (heap st)).
Proof.
  intros Hok Hc' j c Hj. simpl in Hj.
  apply lookup_insert_Some in Hj as [[_ <-]|[_ Hj]]; [done|].
  by apply (Hok j).
Qed.

Lemma store_ok_ingest d ts st : store_ok st → store_ok (fst (ingest_case d ts st)).
Proof.
  intros Hok. rewrite ingest_case_eq. simpl. intros j c Hj. simpl in Hj.
  apply lookup_insert_Some in Hj as [[_ <-]|[_ Hj]].
  - repeat split; simpl; [|done..]. rewrite lookup_insert_eq. by eexists.
  - destruct (Hok j c Hj) as (Hh & Hs & Hw). repeat split; [|done..].
    simpl. apply lookup_insert_is_Some'. by right.
Qed.

Lemma store_ok_run_ocr_extract i ts st :
  store_ok st → store_ok (fst (run_ocr_extract i ts st)).
Proof.
  intros Hok. destruct (cases st !! i) as [c|] eqn:Hi;
    [|by unknown_case (CRunOcrExtract i) ts Hi].
  destruct (dict_get "citizen_name" (data c)) as [name|] eqn:H1;
  [destruct (dict_get "citizen_dob" (data c)) as [dob|] eqn:H2;
   [destruct (dict_get "old_address" (data c)) as [old|] eqn:H3;
    [destruct (dict_get "new_address_raw" (data c)) as [new|] eqn:H4;
     [destruct (dict_get "move_in_date_raw" (data c)) as [move_in|] eqn:H5|]|]|]|].
  - rewrite (run_ocr_extract_eq _ _ _ _ _ _ _ _ _ Hi H1 H2 H3 H4 H5). simpl.
    apply store_ok_appended, store_ok_put; [done|].
    destruct (Hok i c Hi) as (Hh & Hs & _). repeat split; [done..|].
    simpl. by eexists.
  - unfold run_ocr_extract. run_with Hi.
    by rewrite H1, H2, H3, H4, H5, !bind_lift_Some, bind_lift_None.
  - unfold run_ocr_extract. run_with Hi.
    by rewrite H1, H2, H3, H4, !bind_lift_Some, bind_lift_None.
  - unfold run_ocr_extract. run_with Hi.
    by rewrite H1, H2, H3, !bind_lift_Some, bind_lift_None.
  - unfold run_ocr_extract. run_with Hi.
    by rewrite H1, H2, !bind_lift_Some, bind_lift_None.
  - unfold run_ocr_extract. run_with Hi.
    by rewrite H1, bind_lift_None.
Qed.

Lemma dict_get_set_eq k v d : dict_get k (dict_set k v d) = Some v.
Proof.
  induction d as [|[k' v'] d IH]; simpl.
  - by rewrite decide_True.
  - destruct (decide (k = k')) as [->|Hne]; simpl.
    + by rewrite decide_True.
    + by rewrite decide_False.
Qed.

Lemma dict_get_set_ne k k' v d :
  k ≠ k' → dict_get k' (dict_set k v d) = dict_get k' d.
Proof.
  intros Hne. induction d as [|[k0 v0] d IH]; simpl.
  - by rewrite decide_False.
  - destruct (decide (k = k0)) as [->|Hne0]; simpl.
    + by rewrite !decide_False.
    + by rewrite IH.
Qed.

Lemma dict_set_set_eq k v w d : dict_set k w (dict_set k v d) = dict_set k w d.
Proof.
  induction d as [|[k' v'] d IH]; simpl.
  - by rewrite decide_True.
  - destruct (decide (k = k')) as [->|Hne]; simpl.
    + by rewrite decide_True.
    + by rewrite decide_False, IH.
Qed.

Lemma store_ok_resolve i v ts st :
  store_ok st → store_ok (fst (resolve_hitl_update_address i v ts st)).
Proof.
  intros Hok. destruct (cases st !! i) as [c|] eqn:Hi;
    [|by unknown_case (CResolveHitl i v) ts Hi].
  destruct (dict_get "new_address" (working c)) as [old|] eqn:Hold;
    [|by rewrite (resolve_hitl_update_address_missing _ _ _ _ _ Hi Hold)].
  rewrite (resolve_hitl_update_address_eq _ _ _ _ _ _ Hi Hold). simpl.
  apply store_ok_appended, store_ok_put; [done|].
  destruct (Hok i c Hi) as (Hh & Hs & Hw). repeat split; [done..|]. simpl.
  destruct (ocr c).
  - rewrite dict_get_set_eq. by eexists.
  - destruct Hw as [Hw _]. by rewrite Hw in Hold.
Qed.

Lemma store_ok_exec call ts st : store_ok st → store_ok (fst (exec call ts st)).
Proof.
  intros Hok. destruct call as [d|i|i|i v|i|i|i|i|i|i|i|i]; simpl.
  - by apply store_ok_ingest.
  - by apply store_ok_run_ocr_extract.
  - destruct (cases st !! i) as [c|] eqn:Hi;
      [|by unknown_case (CCheckCompleteness i) ts Hi].
    destruct (ocr c) as [o|] eqn:Ho.
    + rewrite (check_completeness_eq _ _ _ _ _ Hi Ho). by apply store_ok_appended.
    + unfold check_completeness. run_with Hi. by rewrite Ho.
  - by apply store_ok_resolve.
  - destruct (cases st !! i) as [c|] eqn:Hi;
      [|by unknown_case (CMatchRegistryIdentity i) ts Hi].
    unfold match_registry_identity. cbv zeta. run_with Hi. by apply store_ok_appended.
  - destruct (cases st !! i) as [c|] eqn:Hi;
      [|by unknown_case (CValidateLandlord i) ts Hi].
    unfold validate_landlord_confirmation. cbv zeta. run_with Hi.
    by apply store_ok_appended.
  - destruct (cases st !! i) as [c|] eqn:Hi;
      [|by unknown_case (CCanonicalizeAddress i) ts Hi].
    unfold canonicalize_address. run_with Hi.
    destruct (dict_get "new_address" (working c)) as [a|].
    + rewrite bind_lift_Some. cbv zeta. run_with Hi. by apply store_ok_appended.
    + by rewrite bind_lift_None.
  - destruct (cases st !! i) as [c|] eqn:Hi;
      [|by unknown_case (CCheckBusinessRules i) ts Hi].
    unfold check_business_rules. cbv zeta. run_with Hi. by apply store_ok_appended.
  - destruct (cases st !! i) as [c|] eqn:Hi;
      [|by unknown_case (CUpdateRegistry i) ts Hi].
    unfold update_registry. cbv zeta. run_with Hi. by apply store_ok_appended.
  - destruct (cases st !! i) as [c|] eqn:Hi;
      [|by unknown_case (CGenerateCertificate i) ts Hi].
    unfold generate_certificate. cbv zeta. run_with Hi. by apply store_ok_appended.
  - destruct (cases st !! i) as [c|] eqn:Hi;
      [|by unknown_case (CNotifyCitizen i) ts Hi].
    unfold notify_citizen. run_with Hi. by apply store_ok_appended.
  - destruct (cases st !! i) as [c|] eqn:Hi;
      [|by unknown_case (CCloseCase i) ts Hi].
    rewrite (close_case_and_audit_eq _ _ _ _ Hi). by apply store_ok_appended.
Qed.

Lemma reachable_ok st : reachable st → store_ok st.
Proof.
  induction 1 as [|st call ts _ IH]; [|by apply store_ok_exec].
  intros i c Hi. simpl in Hi. by rewrite lookup_empty in Hi.
Qed.

Lemma reachable_demo_created : reachable demo_created.
Proof. apply reachable_step, reachable_init. Qed.

Lemma reachable_demo_extracted : reachable demo_extracted.
Proof. apply reachable_step, reachable_demo_created. Qed.

Lemma reachable_demo_overridden : reachable demo_overridden.
Proof. apply reachable_step, reachable_demo_extracted. Qed.

Lemma reachable_demo_reextracted : reachable demo_reextracted.
Proof. apply reachable_step, reachable_demo_overridden. Qed.

(** * Properties of the workflow *)

(** ** Case creation *)

(** C8: every [ingest_case] call succeeds and returns the identifier of a
    case that has empty overrides, an empty working view, no extraction,
    status "created", and an audit log holding exactly one entry, the
    call's own "ingest_case" entry. *)
Theorem ingest_case_creates_fresh_record (d : pydict) (ts : string) (st : Store) :
  ∃ st' i c,
    ingest_case d ts st
    = (st', inr (PDict [("case_id", PStr i); ("message", PStr "Case created.")]))
    ∧ cases st' !! i = Some c
    ∧ data c = d
    ∧ overrides c = []
    ∧ working c = []
    ∧ ocr c = None
    ∧ status c = "created"
    ∧ heap st' !! audit c
      = Some [audit_entry ts "ingest_case" (PStr "Case created with citizen data.")].
Proof.
  rewrite ingest_case_eq. eexists _, _, _. split; [reflexivity|].
  simpl. rewrite lookup_insert_eq. split; [reflexivity|]. simpl.
  by rewrite lookup_insert_eq.
Qed.

(** ** Structural errors *)

(** C4: a tool that takes a case identifier, called with an identifier
    that is not in the store, raises [KeyError] on that identifier and
    returns the store exactly as it was: no case record and no audit list
    has changed. *)
Theorem unknown_case_aborts_without_effect
    (call : Call) (i ts : string) (st : Store) :
  call_case_id call = Some i →
  cases st !! i = None →
  snd (exec call ts st) = inl (KeyError i)
  ∧ fst (exec call ts st) = st
  ∧ (∀ j, cases (fst (exec call ts st)) !! j = cases st !! j)
  ∧ (∀ l, heap (fst (exec call ts st)) !! l = heap st !! l).
Proof.
  intros Hcall Hi. rewrite (exec_unknown_case _ _ _ _ Hcall Hi). by simpl.
Qed.

Lemma unknown_case_aborts_without_effect_witness :
  call_case_id (CResolveHitl "CASE-0007" CORRECTED_ADDRESS) = Some "CASE-0007"
  ∧ cases demo_extracted !! "CASE-0007" = None
  ∧ snd (exec (CResolveHitl "CASE-0007" CORRECTED_ADDRESS) "2025-10-02T10:00:00"
           demo_extracted)
    = inl (KeyError "CASE-0007").
Proof.
  split; [reflexivity|]. split; [vm_compute; reflexivity|].
  apply (unknown_case_aborts_without_effect
           (CResolveHitl "CASE-0007" CORRECTED_ADDRESS) "CASE-0007"
           "2025-10-02T10:00:00" demo_extracted);
    [reflexivity | vm_compute; reflexivity].
Defined.

(** C10: on an existing case on which extraction has not run, the
    override tool raises [KeyError] on the read of the working address and
    returns the store exactly as it was: working view, overrides and audit
    list are untouched. *)
Theorem resolve_before_extraction_aborts
    (i v ts : string) (st : Store) (c : Case) :
  reachable st →
  cases st !! i = Some c →
  ocr c = None →
  dict_get "new_address" (working c) = None
  ∧ resolve_hitl_update_address i v ts st = (st, inl (KeyError "new_address")).
Proof.
  intros Hst Hi Ho.
  destruct (reachable_ok st Hst i c Hi) as (_ & _ & Hw).
  rewrite Ho in Hw. destruct Hw as [Hw _].
  assert (dict_get "new_address" (working c) = None) as Hnone by by rewrite Hw.
  split; [done|]. by apply resolve_hitl_update_address_missing with c.
Qed.

Lemma resolve_before_extraction_aborts_witness :
  ∃ c, cases demo_created !! "CASE-0001" = Some c
       ∧ resolve_hitl_update_address "CASE-0001" CORRECTED_ADDRESS
           "2025-10-02T10:00:00" demo_created
         = (demo_created, inl (KeyError "new_address")).
Proof.
  eexists. split; [vm_compute; reflexivity|].
  eapply (resolve_before_extraction_aborts "CASE-0001" CORRECTED_ADDRESS
            "2025-10-02T10:00:00" demo_created);
    [apply reachable_demo_created | vm_compute; reflexivity | reflexivity].
Defined.

(** ** Closing a case *)

(** C2, as stated, fails: after [close_case_and_audit] on the demo case the
    stored record still has status "created", not "closed". *)
Lemma close_leaves_stored_status_created :
  ∃ st' r c,
    close_case_and_audit "CASE-0001" "2025-10-02T11:00:00" demo_extracted
    = (st', inr r)
    ∧ cases st' !! "CASE-0001" = Some c
    ∧ status c = "created"
    ∧ status c ≠ "closed".
Proof.
  eexists _, _, _. split; [vm_compute; reflexivity|].
  split; [vm_compute; reflexivity|]. by split.
Qed.

(** C2, amended: [close_case_and_audit] on an existing case reports status
    "closed" in its result and appends its "close_case_and_audit" entry to
    the audit list of the case, and it writes no case record: every stored
    record, the status field of the closed case included, is as before the
    call, and that status is "created". *)
Theorem close_reports_closed_keeps_record
    (i ts : string) (st : Store) (c : Case) :
  reachable st →
  cases st !! i = Some c →
  ∃ st' r log,
    close_case_and_audit i ts st = (st', inr (PDict r))
    ∧ dict_get "status" r = Some (PStr "closed")
    ∧ heap st !! audit c = Some log
    ∧ heap st' !! audit c
      = Some (log ++ [PDict [ ("ts", PStr ts);
                              ("event", PStr "close_case_and_audit");
                              ("details", PStr "Case closed.") ]])
    ∧ cases st' = cases st
    ∧ cases st' !! i = Some c
    ∧ status c = "created".
Proof.
  intros Hst Hi.
  destruct (reachable_ok st Hst i c Hi) as ([log Hlog] & Hs & _).
  rewrite (close_case_and_audit_eq _ _ _ _ Hi).
  eexists _, _, log. split; [reflexivity|]. split; [reflexivity|].
  split; [exact Hlog|]. split; [by apply appended_heap|]. by repeat split.
Qed.

Lemma close_reports_closed_keeps_record_witness :
  ∃ c st' r log,
    cases demo_extracted !! "CASE-0001" = Some c
    ∧ close_case_and_audit "CASE-0001" "2025-10-02T11:00:00" demo_extracted
      = (st', inr (PDict r))
    ∧ heap demo_extracted !! audit c = Some log
    ∧ heap st' !! audit c
      = Some (log ++ [PDict [ ("ts", PStr "2025-10-02T11:00:00");
                              ("event", PStr "close_case_and_audit");
                              ("details", PStr "Case closed.") ]])
    ∧ cases st' !! "CASE-0001" = Some c
    ∧ status c = "created".
Proof.
  eexists.
  assert (cases demo_extracted !! "CASE-0001" = Some _) as Hc
    by (vm_compute; reflexivity).
  destruct (close_reports_closed_keeps_record "CASE-0001" "2025-10-02T11:00:00"
              demo_extracted _ reachable_demo_extracted Hc)
    as (st' & r & log & Hrun & _ & Hlog & Hlog' & _ & Hi & Hs).
  exists st', r, log. by repeat split.
Defined.

(** C9: the [audit_log] in the result of [close_case_and_audit] is a
    reference to the audit list object of the case, not a copy taken before
    the append: read after the call it shows the earlier entries followed
    by the call's own "close_case_and_audit" entry, which is the last one. *)
Theorem close_returns_live_audit_list
    (i ts : string) (st : Store) (c : Case) :
  reachable st →
  cases st !! i = Some c →
  ∃ st' r log,
    close_case_and_audit i ts st = (st', inr (PDict r))
    ∧ dict_get "audit_log" r = Some (PRef (audit c))
    ∧ deref st (PRef (audit c)) = Some log
    ∧ deref st' (PRef (audit c))
      = Some (log ++ [audit_entry ts "close_case_and_audit" (PStr "Case closed.")])
    ∧ (∀ log', deref st' (PRef (audit c)) = Some log' →
         last log' = Some (audit_entry ts "close_case_and_audit" (PStr "Case closed."))).
Proof.
  intros Hst Hi. destruct (reachable_ok st Hst i c Hi) as ([log Hlog] & _ & _).
  rewrite (close_case_and_audit_eq _ _ _ _ Hi).
  eexists (appended (audit c) (close_entry ts) st), _, log.
  assert (deref (appended (audit c) (close_entry ts) st) (PRef (audit c))
          = Some (log ++ [close_entry ts])) as Hlive
    by (simpl; by apply appended_heap).
  repeat split; [done..|].
  intros log' Hlog'. rewrite Hlive in Hlog'. simplify_eq. apply last_snoc.
Qed.

Lemma close_returns_live_audit_list_witness :
  ∃ c st' r,
    cases demo_created !! "CASE-0001" = Some c
    ∧ close_case_and_audit "CASE-0001" "2025-10-02T11:00:00" demo_created
      = (st', inr (PDict r))
    ∧ dict_get "audit_log" r = Some (PRef (audit c)).
Proof.
  eexists.
  assert (cases demo_created !! "CASE-0001" = Some _) as Hc
    by (vm_compute; reflexivity).
  destruct (close_returns_live_audit_list "CASE-0001" "2025-10-02T11:00:00"
              demo_created _ reachable_demo_created Hc)
    as (st' & r & log & Hrun & Href & _).
  exists st', r. by repeat split.
Defined.

(** ** Completeness check *)

(** C5: on a case on which extraction has run, [check_completeness]
    succeeds; its status is "hitl_required" exactly when some confidence
    score is below 0.8 and "ok" exactly when none is; and its
    [low_conf_fields] are the fields whose score is below 0.8, in the order
    of the confidence dictionary. *)
Theorem check_completeness_flags_low_confidence
    (i ts : string) (st : Store) (c : Case) (o : OCR) :
  cases st !! i = Some c →
  ocr c = Some o →
  ∃ st' status low,
    check_completeness i ts st
    = (st', inr (PDict [ ("status", PStr status);
                         ("low_conf_fields", PList (PStr <$> low)) ]))
    ∧ (status = "hitl_required"
       ↔ ∃ k v, (k, v) ∈ confidence o ∧ PrimFloat.ltb v 0.8 = true)
    ∧ (status = "ok"
       ↔ ∀ k v, (k, v) ∈ confidence o → PrimFloat.ltb v 0.8 = false)
    ∧ low = fst <$> List.filter (λ kv, PrimFloat.ltb (snd kv) 0.8) (confidence o)
    ∧ (∀ k, k ∈ low ↔ ∃ v, (k, v) ∈ confidence o ∧ PrimFloat.ltb v 0.8 = true).
Proof.
  intros Hi Ho. rewrite (check_completeness_eq _ _ _ _ _ Hi Ho). cbv zeta.
  eexists _, _, _. split; [reflexivity|].
  assert (∀ k, k ∈ low_conf_keys (confidence o)
               ↔ ∃ v, (k, v) ∈ confidence o ∧ PrimFloat.ltb v 0.8 = true) as Hmem.
  { intros k. unfold low_conf_keys. rewrite list_elem_of_fmap. split.
    - intros ([k' v] & -> & Hin). apply list_elem_of_In, filter_In in Hin.
      destruct Hin as [Hin Hlt]. exists v. split; [|done].
      by apply list_elem_of_In.
    - intros (v & Hin & Hlt). exists (k, v). split; [done|].
      apply list_elem_of_In, filter_In. split; [|done].
      by apply list_elem_of_In. }
  split; [|split; [|split; [reflexivity|exact Hmem]]].
  - destruct (low_conf_keys (confidence o)) as [|k low] eqn:Hlow; simpl.
    + split; [done|]. intros (k & v & Hkv).
      assert (k ∈ @nil string) as Hk by (apply Hmem; eauto).
      by apply not_elem_of_nil in Hk.
    + split; [|done]. intros _.
      destruct (proj1 (Hmem k)) as (v & Hv); [by left|]. eauto.
  - destruct (low_conf_keys (confidence o)) as [|k low] eqn:Hlow; simpl.
    + split; [|done]. intros _ k v Hin.
      destruct (PrimFloat.ltb v 0.8) eqn:Hlt; [|done].
      assert (k ∈ @nil string) as Hk by (apply Hmem; eauto).
      by apply not_elem_of_nil in Hk.
    + split; [done|]. intros Hall.
      destruct (proj1 (Hmem k)) as (v & Hin & Hlt); [by left|].
      by rewrite (Hall k v Hin) in Hlt.
Qed.

Lemma check_completeness_flags_low_confidence_witness :
  ∃ c o st',
    cases demo_extracted !! "CASE-0001" = Some c
    ∧ ocr c = Some o
    ∧ check_completeness "CASE-0001" "2025-10-02T09:00:02" demo_extracted
      = (st', inr (PDict [ ("status", PStr "hitl_required");
                           ("low_conf_fields", PList [PStr "new_address"]) ])).
Proof.
  eexists _, _.
  assert (cases demo_extracted !! "CASE-0001" = Some _) as Hc
    by (vm_compute; reflexivity).
  destruct (check_completeness_flags_low_confidence "CASE-0001"
              "2025-10-02T09:00:02" demo_extracted _ _ Hc eq_refl)
    as (st' & status & low & Hrun & Hhitl & _ & Hlow & _).
  exists st'. split; [exact Hc|]. split; [reflexivity|].
  assert (status = "hitl_required") as ->.
  { apply Hhitl. exists "new_address", 0.73%float. simpl. split; [left|reflexivity]. }
  vm_compute in Hlow. rewrite Hrun, Hlow. reflexivity.
Defined.

(** ** Human-in-the-loop override *)

Lemma overridden_case_twice c v w :
  overridden_case (overridden_case c v) w = overridden_case c w.
Proof. unfold overridden_case. simpl. by rewrite !dict_set_set_eq. Qed.

(** Two overrides in a row on a case whose working address is [old]. *)
Lemma resolve_twice_eq st i c old log v1 v2 ts1 ts2 :
  cases st !! i = Some c →
  dict_get "new_address" (working c) = Some old →
  heap st !! audit c = Some log →
  ∃ st1 r1 st2 r2,
    resolve_hitl_update_address i v1 ts1 st = (st1, inr r1)
    ∧ resolve_hitl_update_address i v2 ts2 st1 = (st2, inr r2)
    ∧ cases st1 = <[i := overridden_case c v1]> (cases st)
    ∧ cases st2 = <[i := overridden_case c v2]> (cases st)
    ∧ heap st1 !! audit c = Some (log ++ [override_entry ts1 old v1])
    ∧ heap st2 !! audit c
      = Some (log ++ [override_entry ts1 old v1; override_entry ts2 (PStr v1) v2]).
Proof.
  intros Hi Hold Hlog.
  pose proof (resolve_hitl_update_address_eq st i c v1 ts1 old Hi Hold) as Hr1.
  set (st1 := appended _ _ _) in Hr1.
  assert (cases st1 !! i = Some (overridden_case c v1)) as Hi1
    by (simpl; apply lookup_insert_eq).
  assert (dict_get "new_address" (working (overridden_case c v1)) = Some (PStr v1))
    as Hold1 by (simpl; apply dict_get_set_eq).
  assert (heap st1 !! audit c = Some (log ++ [override_entry ts1 old v1])) as Hlog1
    by (by apply appended_heap).
  pose proof (resolve_hitl_update_address_eq st1 i _ v2 ts2 _ Hi1 Hold1) as Hr2.
  eexists _, _, _, _. split; [exact Hr1|]. split; [exact Hr2|].
  split; [reflexivity|]. split; [|split; [done|]].
  - simpl. by rewrite insert_insert_eq, overridden_case_twice.
  - change (audit (overridden_case c v1)) with (audit c).
    erewrite appended_heap; [|simpl; exact Hlog1]. by rewrite <-app_assoc.
Qed.

(** C6: on a case on which extraction has run, two overrides with values
    [v1] then [v2] leave the working address and the override both equal to
    [v2], the working view and the overrides being what a single override
    with [v2] gives; the audit list has gained the two override entries, in
    call order, after the entries it had. *)
Theorem later_override_wins
    (i v1 v2 ts1 ts2 : string) (st : Store) (c : Case) :
  reachable st →
  cases st !! i = Some c →
  is_Some (ocr c) →
  ∃ old log st1 r1 st2 r2 c2,
    dict_get "new_address" (working c) = Some old
    ∧ heap st !! audit c = Some log
    ∧ resolve_hitl_update_address i v1 ts1 st = (st1, inr r1)
    ∧ resolve_hitl_update_address i v2 ts2 st1 = (st2, inr r2)
    ∧ cases st2 !! i = Some c2
    ∧ dict_get "new_address" (working c2) = Some (PStr v2)
    ∧ dict_get "new_address" (overrides c2) = Some (PStr v2)
    ∧ working c2 = dict_set "new_address" (PStr v2) (working c)
    ∧ overrides c2 = dict_set "new_address" (PStr v2) (overrides c)
    ∧ audit c2 = audit c
    ∧ heap st2 !! audit c2
      = Some (log ++ [ override_entry ts1 old v1;
                       override_entry ts2 (PStr v1) v2 ]).
Proof.
  intros Hst Hi [o Ho].
  destruct (reachable_ok st Hst i c Hi) as ([log Hlog] & _ & Hw).
  rewrite Ho in Hw. destruct Hw as [old Hold].
  destruct (resolve_twice_eq st i c old log v1 v2 ts1 ts2 Hi Hold Hlog)
    as (st1 & r1 & st2 & r2 & Hr1 & Hr2 & _ & Hc2 & _ & Hlog2).
  exists old, log, st1, r1, st2, r2, (overridden_case c v2).
  split; [done|]. split; [done|]. split; [done|]. split; [done|].
  split; [by rewrite Hc2, lookup_insert_eq|]. simpl.
  by rewrite !dict_get_set_eq.
Qed.

Lemma later_override_wins_witness :
  ∃ c st1 r1 st2 r2 c2,
    cases demo_extracted !! "CASE-0001" = Some c
    ∧ resolve_hitl_update_address "CASE-0001" "Musterstr. 12a" "2025-10-02T09:04:00"
        demo_extracted = (st1, inr r1)
    ∧ resolve_hitl_update_address "CASE-0001" CORRECTED_ADDRESS "2025-10-02T09:05:00"
        st1 = (st2, inr r2)
    ∧ cases st2 !! "CASE-0001" = Some c2
    ∧ dict_get "new_address" (working c2) = Some (PStr CORRECTED_ADDRESS)
    ∧ dict_get "new_address" (overrides c2) = Some (PStr CORRECTED_ADDRESS).
Proof.
  eexists.
  assert (cases demo_extracted !! "CASE-0001" = Some _) as Hc
    by (vm_compute; reflexivity).
  destruct (later_override_wins "CASE-0001" "Musterstr. 12a" CORRECTED_ADDRESS
              "2025-10-02T09:04:00" "2025-10-02T09:05:00" demo_extracted _
              reachable_demo_extracted Hc (mk_is_Some _ _ eq_refl))
    as (old & log & st1 & r1 & st2 & r2 & c2 & _ & _ & H1 & H2 & H3 & H4 & H5 & _).
  exists st1, r1, st2, r2, c2. by repeat split.
Defined.

(** C7: on a case on which extraction has run, two overrides with the same
    value leave every case record, working view and overrides included,
    exactly as the first call left it, and each of the two calls appends
    one entry to the audit list. *)
Theorem repeated_override_is_noop_but_audited
    (i v ts1 ts2 : string) (st : Store) (c : Case) :
  reachable st →
  cases st !! i = Some c →
  is_Some (ocr c) →
  ∃ old log st1 r1 st2 r2 c1,
    dict_get "new_address" (working c) = Some old
    ∧ heap st !! audit c = Some log
    ∧ resolve_hitl_update_address i v ts1 st = (st1, inr r1)
    ∧ resolve_hitl_update_address i v ts2 st1 = (st2, inr r2)
    ∧ cases st1 !! i = Some c1
    ∧ cases st2 !! i = Some c1
    ∧ cases st2 = cases st1
    ∧ heap st1 !! audit c1 = Some (log ++ [override_entry ts1 old v])
    ∧ heap st2 !! audit c1
      = Some (log ++ [override_entry ts1 old v; override_entry ts2 (PStr v) v])
    ∧ (∀ log1 log2, heap st1 !! audit c1 = Some log1 →
         heap st2 !! audit c1 = Some log2 →
         length log1 = S (length log) ∧ length log2 = S (S (length log))).
Proof.
  intros Hst Hi [o Ho].
  destruct (reachable_ok st Hst i c Hi) as ([log Hlog] & _ & Hw).
  rewrite Ho in Hw. destruct Hw as [old Hold].
  destruct (resolve_twice_eq st i c old log v v ts1 ts2 Hi Hold Hlog)
    as (st1 & r1 & st2 & r2 & Hr1 & Hr2 & Hc1 & Hc2 & Hlog1 & Hlog2).
  exists old, log, st1, r1, st2, r2, (overridden_case c v).
  split; [done|]. split; [done|]. split; [done|]. split; [done|].
  split; [by rewrite Hc1, lookup_insert_eq|].
  split; [by rewrite Hc2, lookup_insert_eq|].
  split; [by rewrite Hc1, Hc2|].
  change (audit (overridden_case c v)) with (audit c).
  split; [done|]. split; [done|].
  intros log1 log2 H1 H2. rewrite Hlog1 in H1. rewrite Hlog2 in H2.
  simplify_eq. rewrite !length_app. simpl. lia.
Qed.

Lemma repeated_override_is_noop_but_audited_witness :
  ∃ c st1 r1 st2 r2,
    cases demo_extracted !! "CASE-0001" = Some c
    ∧ resolve_hitl_update_address "CASE-0001" CORRECTED_ADDRESS "2025-10-02T09:05:00"
        demo_extracted = (st1, inr r1)
    ∧ resolve_hitl_update_address "CASE-0001" CORRECTED_ADDRESS "2025-10-02T09:05:30"
        st1 = (st2, inr r2)
    ∧ cases st2 = cases st1.
Proof.
  eexists.
  assert (cases demo_extracted !! "CASE-0001" = Some _) as Hc
    by (vm_compute; reflexivity).
  destruct (repeated_override_is_noop_but_audited "CASE-0001" CORRECTED_ADDRESS
              "2025-10-02T09:05:00" "2025-10-02T09:05:30" demo_extracted _
              reachable_demo_extracted Hc (mk_is_Some _ _ eq_refl))
    as (old & log & st1 & r1 & st2 & r2 & c1 & _ & _ & H1 & H2 & _ & _ & H3 & _).
  exists st1, r1, st2, r2. by repeat split.
Defined.

(** ** End-to-end run *)



(** ** Re-extraction and the overlay *)

(** C1 at the input where the code departs from it: after ingest,
    extraction, an officer's override and a second extraction, the case
    holds the override "Musterstraße 12a, 12345 Kaiserslautern" for
    [new_address] while its working address is the extracted
    "Musterstr 12a KL 12345" again. *)
Theorem reextraction_discards_override :
  ∃ c o,
    cases demo_reextracted !! "CASE-0001" = Some c
    ∧ ocr c = Some o
    ∧ dict_get "new_address" (fields o) = Some (PStr RAW_ADDRESS)
    ∧ dict_get "new_address" (overrides c) = Some (PStr CORRECTED_ADDRESS)
    ∧ dict_get "new_address" (working c) = Some (PStr RAW_ADDRESS)
    ∧ dict_get "new_address" (working c) ≠ dict_get "new_address" (overrides c).
Proof.
  eexists _, _. split; [vm_compute; reflexivity|]. split; [reflexivity|].
  split; [reflexivity|]. split; [reflexivity|]. split; [reflexivity|].
  simpl. intros [=].
Qed.

(** * Further properties of the store and the tools *)

(** ** The effect of a call on the case it names *)

Lemma store_insert_id st i c :
  cases st !! i = Some c → mkStore (<[i := c]> (cases st)) (heap st) = st.
Proof. intros Hi. destruct st as [m h]. simpl in *. by rewrite insert_id. Qed.

Lemma run_ocr_extract_missing st i c ts pre k post :
  cases st !! i = Some c →
  extraction_keys = pre ++ k :: post →
  Forall (λ k', is_Some (dict_get k' (data c))) pre →
  dict_get k (data c) = None →
  run_ocr_extract i ts st = (st, inl (KeyError k)).
Proof.
  intros Hi Hkeys Hpre Hk. unfold run_ocr_extract. run_with Hi.
  unfold extraction_keys in Hkeys.
  repeat (destruct pre as [|? pre]; simpl in Hkeys;
          [injection Hkeys as <- <-; by rewrite Hk, bind_lift_None|];
          injection Hkeys as <- Hkeys;
          apply Forall_cons in Hpre as [[? ->] Hpre]; rewrite bind_lift_Some).
  by destruct pre.
Qed.

Lemma exec_on_case call i ts st c :
  call_case_id call = Some i →
  cases st !! i = Some c →
  (∃ e, exec call ts st = (st, inl e))
  ∨ (∃ c' d r,
       exec call ts st
       = (appended (audit c) (audit_entry ts (call_event call) d)
            (mkStore (<[i := c']> (cases st)) (heap st)),
          inr r)
       ∧ case_step call c c').
Proof.
  intros Hcall Hi.
  destruct call as [d|j|j|j v|j|j|j|j|j|j|j|j]; simpl in Hcall; simplify_eq; simpl.
  - destruct (dict_get "citizen_name" (data c)) as [name|] eqn:H1;
      [|left; eexists; by apply (run_ocr_extract_missing _ _ c _ [] _ _ Hi eq_refl)].
    destruct (dict_get "citizen_dob" (data c)) as [dob|] eqn:H2;
      [|left; eexists;
        apply (run_ocr_extract_missing _ _ c _ ["citizen_name"] _ _ Hi eq_refl);
        [repeat constructor; by eexists|done]].
    destruct (dict_get "old_address" (data c)) as [old|] eqn:H3;
      [|left; eexists;
        apply (run_ocr_extract_missing _ _ c _ ["citizen_name"; "citizen_dob"]
                 _ _ Hi eq_refl);
        [repeat constructor; by eexists|done]].
    destruct (dict_get "new_address_raw" (data c)) as [new|] eqn:H4;
      [|left; eexists;
        apply (run_ocr_extract_missing _ _ c _
                 ["citizen_name"; "citizen_dob"; "old_address"] _ _ Hi eq_refl);
        [repeat constructor; by eexists|done]].
    destruct (dict_get "move_in_date_raw" (data c)) as [move_in|] eqn:H5;
      [|left; eexists;
        apply (run_ocr_extract_missing _ _ c _
                 ["citizen_name"; "citizen_dob"; "old_address"; "new_address_raw"]
                 _ _ Hi eq_refl);
        [repeat constructor; by eexists|done]].
    right. eexists _, _, _. split.
    + by apply run_ocr_extract_eq.
    + by exists name, dob, old, new, move_in.
  - destruct (ocr c) as [o|] eqn:Ho.
    + right. eexists c, _, _. rewrite (store_insert_id _ _ _ Hi). split; [|done].
      by apply check_completeness_eq.
    + left. eexists. unfold check_completeness. run_with Hi. by rewrite Ho.
  - destruct (dict_get "new_address" (working c)) as [old|] eqn:Hold.
    + right. eexists _, _, _. split.
      * by apply resolve_hitl_update_address_eq.
      * split; [by eexists|done].
    + left. eexists. by apply resolve_hitl_update_address_missing with c.
  - right. eexists c, _, _. rewrite (store_insert_id _ _ _ Hi). split; [|done].
    unfold match_registry_identity. cbv zeta. by run_with Hi.
  - right. eexists c, _, _. rewrite (store_insert_id _ _ _ Hi). split; [|done].
    unfold validate_landlord_confirmation. cbv zeta. by run_with Hi.
  - destruct (dict_get "new_address" (working c)) as [a|] eqn:Ha.
    + right. eexists c, _, _. rewrite (store_insert_id _ _ _ Hi). split; [|done].
      unfold canonicalize_address. run_with Hi. rewrite Ha, bind_lift_Some.
      cbv zeta. by run_with Hi.
    + left. eexists. unfold canonicalize_address. run_with Hi.
      by rewrite Ha, bind_lift_None.
  - right. eexists c, _, _. rewrite (store_insert_id _ _ _ Hi). split; [|done].
    unfold check_business_rules. cbv zeta. by run_with Hi.
  - right. eexists c, _, _. rewrite (store_insert_id _ _ _ Hi). split; [|done].
    unfold update_registry. cbv zeta. by run_with Hi.
  - right. eexists c, _, _. rewrite (store_insert_id _ _ _ Hi). split; [|done].
    unfold generate_certificate. cbv zeta. by run_with Hi.
  - right. eexists c, _, _. rewrite (store_insert_id _ _ _ Hi). split; [|done].
    unfold notify_citizen. by run_with Hi.
  - right. eexists c, _, _. rewrite (store_insert_id _ _ _ Hi). split; [|done].
    by apply close_case_and_audit_eq.
Qed.

(** ** Case identifiers *)

Lemma zeros_succ k :
  String.concat "" (replicate (S k) "0")
  = String "0"%char (String.concat "" (replicate k "0")).
Proof. destruct k; reflexivity. Qed.

Lemma decode_decimal_zero s :
  decode_decimal (String "0"%char s) = decode_decimal s.
Proof.
  unfold decode_decimal. simpl.
  destruct (NilEmpty.uint_of_string s) as [d|]; reflexivity.
Qed.

Lemma decode_decimal_zeros k s :
  decode_decimal (String.concat "" (replicate k "0") +:+ s) = decode_decimal s.
Proof.
  induction k as [|k IH]; [reflexivity|].
  rewrite zeros_succ.
  change (decode_decimal
            (String "0"%char (String.concat "" (replicate k "0") +:+ s))
          = decode_decimal s).
  by rewrite decode_decimal_zero.
Qed.

Lemma decode_format_04d n : decode_decimal (format_04d n) = Some n.
Proof.
  unfold format_04d. cbv zeta. rewrite decode_decimal_zeros.
  unfold decode_decimal, NilZero.string_of_uint.
  destruct (Nat.to_uint n) as [|d|d|d|d|d|d|d|d|d|d] eqn:Hn;
    [pose proof (DecimalNat.Unsigned.of_to n) as Hof; rewrite Hn in Hof;
     simpl in *; by subst|..];
    rewrite NilEmpty.usu; simpl; rewrite <-Hn;
    by rewrite DecimalNat.Unsigned.of_to.
Qed.

Lemma case_id_of_decode n m : case_id_of n = case_id_of m → n = m.
Proof.
  unfold case_id_of. intros Heq. simpl in Heq. simplify_eq.
  assert (decode_decimal (format_04d n) = decode_decimal (format_04d m)) as Hd
    by by f_equal.
  rewrite !decode_format_04d in Hd. by simplify_eq.
Qed.

(** ** Reachable stores are well formed *)

Lemma case_step_keeps call c c' :
  case_step call c c' →
  data c' = data c ∧ audit c' = audit c ∧ status c' = status c.
Proof.
  destruct call; simpl;
    first [ by intros -> | by intros (? & ? & ? & ? & ? & _ & _ & _ & _ & _ & ->)
          | by intros [_ ->] ].
Qed.

Lemma case_step_wf call c c' : case_step call c c' → case_wf c → case_wf c'.
Proof.
  destruct call as [d|j|j|j v|j|j|j|j|j|j|j|j]; simpl; try by intros ->.
  - intros (name & dob & old & new & move_in & H1 & H2 & H3 & H4 & H5 & ->) Hwf.
    unfold case_wf. simpl.
    exists name, dob, old, new, move_in, new. repeat (split; [done|]).
    unfold case_wf in Hwf. destruct (ocr c) as [o|].
    + destruct Hwf as (n0 & d0 & o0 & a0 & m0 & w & _ & _ & _ & _ & _ & _ & _ & Hov).
      destruct Hov as [[Hov _]|(v & Hov & _)]; [by left|].
      right. exists v. split; [done|by right].
    + destruct Hwf as [_ Hov]. by left.
  - intros [[a Ha] ->] Hwf. unfold case_wf in *. simpl.
    destruct (ocr c) as [o|].
    + destruct Hwf as (name & dob & old & new & move_in & w
                       & H1 & H2 & H3 & H4 & H5 & Ho & Hw & Hov).
      exists name, dob, old, new, move_in, (PStr v). repeat (split; [done|]).
      split; [by rewrite Hw|].
      right. exists v. split; [|by left].
      destruct Hov as [[Hov _]|(v0 & Hov & _)]; by rewrite Hov.
    + destruct Hwf as [Hw _]. by rewrite Hw in Ha.
Qed.

Lemma log_ok_appended st l x c : log_ok st c → log_ok (appended l x st) c.
Proof.
  intros (ts & rest & Hlog). unfold log_ok, appended. simpl.
  destruct (decide (l = audit c)) as [->|Hne].
  - exists ts, (rest ++ [x]). by rewrite lookup_alter_eq, Hlog.
  - exists ts, rest. by rewrite lookup_alter_ne.
Qed.

Lemma store_wf_update st i c c' l x :
  store_wf st →
  cases st !! i = Some c →
  audit c' = audit c → status c' = status c → case_wf c' →
  store_wf (appended l x (mkStore (<[i := c']> (cases st)) (heap st))).
Proof.
  intros (Hids & Hinj & Hcases) Hi Haudit Hstatus Hwf.
  split; [|split].
  - intros j. simpl. rewrite map_size_insert_Some by by eexists.
    etrans; [|apply Hids]. rewrite lookup_insert_is_Some.
    split; [intros [<-|[_ ?]]; [by eexists|done]|].
    intros Hj. destruct (decide (i = j)); [by left|by right].
  - intros j1 j2 c1 c2. simpl. intros Hj1 Hj2 Heq.
    apply lookup_insert_Some in Hj1 as [[<- <-]|[Hne1 Hj1]];
      apply lookup_insert_Some in Hj2 as [[<- <-]|[Hne2 Hj2]]; try done.
    + rewrite Haudit in Heq. by apply (Hinj i j2 c c2).
    + rewrite Haudit in Heq. by apply (Hinj j1 i c1 c).
    + by apply (Hinj j1 j2 c1 c2).
  - intros j cj. simpl. intros Hj.
    apply lookup_insert_Some in Hj as [[<- <-]|[Hne Hj]].
    + destruct (Hcases i c Hi) as (Hs & _ & Hlog).
      split; [by rewrite Hstatus|]. split; [done|].
      apply log_ok_appended. destruct Hlog as (ts & rest & Hlog).
      exists ts, rest. simpl. by rewrite Haudit.
    + destruct (Hcases j cj Hj) as (Hs & Hw & Hlog).
      split; [done|]. split; [done|]. by apply log_ok_appended.
Qed.

Lemma new_case_id_fresh st : ids_ok st → cases st !! new_case_id st = None.
Proof.
  intros Hids. destruct (cases st !! new_case_id st) as [c|] eqn:Hc; [|done].
  destruct (proj1 (Hids (new_case_id st))) as (k & Hk & Heq); [by eexists|].
  apply case_id_of_decode in Heq. lia.
Qed.

Lemma store_wf_ingest d ts st : store_wf st → store_wf (fst (ingest_case d ts st)).
Proof.
  intros (Hids & Hinj & Hcases). rewrite ingest_case_eq. simpl.
  pose proof (new_case_id_fresh st Hids) as Hfresh.
  assert (∀ j cj, cases st !! j = Some cj → audit cj ≠ fresh (dom (heap st)))
    as Hloc.
  { intros j cj Hj Heq. destruct (Hcases j cj Hj) as (_ & _ & ts' & rest & Hlog).
    apply (is_fresh (dom (heap st))). rewrite <-Heq.
    apply elem_of_dom. by eexists. }
  split; [|split].
  - intros j. simpl. rewrite map_size_insert_None by done.
    rewrite lookup_insert_is_Some. split.
    + intros [<-|[_ Hj]].
      * exists (S (size (cases st))). split; [lia|].
        unfold new_case_id. by rewrite Nat.add_1_r.
      * apply Hids in Hj as (k & Hk & ->). exists k. split; [lia|done].
    + intros (k & Hk & ->). destruct (decide (k = S (size (cases st)))) as [->|Hne].
      * left. unfold new_case_id. by rewrite Nat.add_1_r.
      * right. split.
        -- intros Heq. unfold new_case_id in Heq.
           apply case_id_of_decode in Heq. lia.
        -- apply Hids. exists k. split; [lia|done].
  - intros j1 j2 c1 c2. simpl. intros Hj1 Hj2 Heq.
    apply lookup_insert_Some in Hj1 as [[<- <-]|[Hne1 Hj1]];
      apply lookup_insert_Some in Hj2 as [[<- <-]|[Hne2 Hj2]]; try done.
    + simpl in Heq. by destruct (Hloc j2 c2 Hj2).
    + simpl in Heq. by destruct (Hloc j1 c1 Hj1).
    + by apply (Hinj j1 j2 c1 c2).
  - intros j cj. simpl. intros Hj.
    apply lookup_insert_Some in Hj as [[<- <-]|[Hne Hj]].
    + split; [done|]. split; [by split|].
      exists ts, []. simpl. by rewrite lookup_insert_eq.
    + destruct (Hcases j cj Hj) as (Hs & Hw & ts' & rest & Hlog).
      split; [done|]. split; [done|]. exists ts', rest. simpl.
      rewrite lookup_insert_ne; [done|]. intros Heq. by apply (Hloc j cj Hj).
Qed.

Lemma store_wf_exec call ts st : store_wf st → store_wf (fst (exec call ts st)).
Proof.
  intros Hwf. destruct (call_case_id call) as [i|] eqn:Hcall.
  - destruct (cases st !! i) as [c|] eqn:Hi;
      [|by rewrite (exec_unknown_case _ _ _ _ Hcall Hi)].
    destruct (exec_on_case call i ts st c Hcall Hi)
      as [[e ->]|(c' & d & r & -> & Hstep)]; [done|]. simpl.
    destruct (case_step_keeps _ _ _ Hstep) as (_ & Ha & Hs).
    apply (store_wf_update st i c); [done..|].
    apply (case_step_wf call c); [done|].
    destruct Hwf as (_ & _ & Hcases). by destruct (Hcases i c Hi) as (_ & ? & _).
  - destruct call; try done. by apply store_wf_ingest.
Qed.

Lemma reachable_wf st : reachable st → store_wf st.
Proof.
  induction 1 as [|st call ts _ IH]; [|by apply store_wf_exec].
  split; [|split].
  - intros i. simpl. rewrite lookup_empty, map_size_empty. split.
    + by intros [? ?].
    + intros (k & Hk & _). lia.
  - intros i j ci cj Hi. simpl in Hi. by rewrite lookup_empty in Hi.
  - intros i c Hi. simpl in Hi. by rewrite lookup_empty in Hi.
Qed.

(** ** Identifier allocation *)

(** X1: two counts give the same case identifier only if they are the same
    count: the zero-padded decimal rendering never collides. *)
Theorem case_ids_never_collide (n m : nat) :
  case_id_of n = case_id_of m ↔ n = m.
Proof. split; [apply case_id_of_decode|by intros ->]. Qed.

(** X2: in a reachable store the identifiers in use are exactly those of
    the counts 1 to [len(cases)]. *)
Theorem identifiers_are_sequential (st : Store) (i : string) :
  reachable st →
  (is_Some (cases st !! i)
   ↔ ∃ k : nat, (1 ≤ k ≤ size (cases st))%nat ∧ i = case_id_of k).
Proof. intros Hst. by destruct (reachable_wf st Hst) as (Hids & _). Qed.

Lemma identifiers_are_sequential_witness :
  is_Some (cases demo_extracted !! "CASE-0001")
  ↔ ∃ k : nat, (1 ≤ k ≤ size (cases demo_extracted))%nat ∧ "CASE-0001" = case_id_of k.
Proof.
  apply (identifiers_are_sequential demo_extracted "CASE-0001"
           reachable_demo_extracted).
Defined.

(** X3: in a reachable store [ingest_case] returns the identifier of the
    next count, that identifier was not in use, the store has one more
    case, and every case that was there keeps its record and its audit
    list. *)
Theorem ingest_allocates_fresh_identifier (d : pydict) (ts : string) (st : Store) :
  reachable st →
  ∃ st',
    ingest_case d ts st
    = (st', inr (PDict [ ("case_id", PStr (case_id_of (S (size (cases st)))));
                         ("message", PStr "Case created.") ]))
    ∧ cases st !! case_id_of (S (size (cases st))) = None
    ∧ size (cases st') = S (size (cases st))
    ∧ ∀ j c, cases st !! j = Some c →
        cases st' !! j = Some c ∧ heap st' !! audit c = heap st !! audit c.
Proof.
  intros Hst. destruct (reachable_wf st Hst) as (Hids & _ & Hcases).
  pose proof (new_case_id_fresh st Hids) as Hfresh.
  rewrite ingest_case_eq. unfold new_case_id in *. rewrite Nat.add_1_r in *.
  eexists. split; [reflexivity|]. split; [done|]. simpl.
  split; [by apply map_size_insert_None|].
  intros j c Hj. split.
  - rewrite lookup_insert_ne; [done|]. intros <-. by rewrite Hfresh in Hj.
  - rewrite lookup_insert_ne; [done|]. intros Heq.
    destruct (Hcases j c Hj) as (_ & _ & ts' & rest & Hlog).
    apply (is_fresh (dom (heap st))). rewrite Heq. apply elem_of_dom. by eexists.
Qed.

Lemma ingest_allocates_fresh_identifier_witness :
  ∃ st',
    ingest_case DEMO_PAYLOAD "2025-10-03T08:00:00" demo_extracted
    = (st', inr (PDict [ ("case_id", PStr "CASE-0002");
                         ("message", PStr "Case created.") ]))
    ∧ size (cases st') = 2.
Proof.
  destruct (ingest_allocates_fresh_identifier DEMO_PAYLOAD "2025-10-03T08:00:00"
              demo_extracted reachable_demo_extracted)
    as (st' & Hrun & _ & Hsize & _).
  exists st'. split; [exact Hrun|]. rewrite Hsize. vm_compute. reflexivity.
Defined.

(** ** Failures and the audit trail *)

(** X4: a call that raises leaves the whole store as it was: every tool
    does its reads, which are what can fail, before its first write. *)
Theorem failed_call_changes_nothing (call : Call) (ts : string) (st : Store) (e : exn) :
  snd (exec call ts st) = inl e → fst (exec call ts st) = st.
Proof.
  intros Hfail. destruct (call_case_id call) as [i|] eqn:Hcall.
  - destruct (cases st !! i) as [c|] eqn:Hi;
      [|by rewrite (exec_unknown_case _ _ _ _ Hcall Hi)].
    destruct (exec_on_case call i ts st c Hcall Hi)
      as [[e' Hrun]|(c' & d & r & Hrun & _)]; rewrite Hrun in *; [done|].
    by simpl in Hfail.
  - destruct call; try done. simpl in *. by rewrite ingest_case_eq in Hfail.
Qed.

Lemma failed_call_changes_nothing_witness :
  fst (exec (CCheckCompleteness "CASE-0001") "2025-10-02T09:00:01" demo_created)
  = demo_created.
Proof.
  apply (failed_call_changes_nothing (CCheckCompleteness "CASE-0001")
           "2025-10-02T09:00:01" demo_created
           (TypeError "'NoneType' object is not subscriptable")).
  vm_compute. reflexivity.
Defined.

(** X5: audit lists are append-only: whatever the call and whether it
    succeeds, every list object keeps its entries, in order, and gains at
    most one at its end. *)
Theorem audit_lists_only_grow
    (call : Call) (ts : string) (st : Store) (l : loc) (log : list pyval) :
  heap st !! l = Some log →
  ∃ suffix,
    heap (fst (exec call ts st)) !! l = Some (log ++ suffix)
    ∧ (length suffix ≤ 1)%nat.
Proof.
  intros Hl. destruct (call_case_id call) as [i|] eqn:Hcall.
  - assert (∃ suffix, heap st !! l = Some (log ++ suffix) ∧ (length suffix ≤ 1)%nat)
      as Hsame by (exists []; rewrite app_nil_r; split; [done|simpl; lia]).
    destruct (cases st !! i) as [c|] eqn:Hi;
      [|by rewrite (exec_unknown_case _ _ _ _ Hcall Hi)].
    destruct (exec_on_case call i ts st c Hcall Hi)
      as [[e' ->]|(c' & d & r & -> & _)]; [done|]. simpl.
    destruct (decide (audit c = l)) as [->|Hne].
    + eexists [_]. rewrite lookup_alter_eq, Hl. split; [done|simpl; lia].
    + rewrite lookup_alter_ne by done. done.
  - destruct call; try done. simpl. rewrite ingest_case_eq. simpl.
    exists []. rewrite app_nil_r. split; [|simpl; lia].
    rewrite lookup_insert_ne; [done|]. intros Heq.
    apply (is_fresh (dom (heap st))). rewrite Heq. apply elem_of_dom. by eexists.
Qed.

Lemma audit_lists_only_grow_witness :
  ∃ log suffix,
    heap demo_created !! 1%positive = Some log
    ∧ heap demo_extracted !! 1%positive = Some (log ++ suffix)
    ∧ (length suffix ≤ 1)%nat.
Proof.
  eexists.
  assert (heap demo_created !! 1%positive = Some _) as Hlog
    by (vm_compute; reflexivity).
  destruct (audit_lists_only_grow (CRunOcrExtract "CASE-0001") "2025-10-02T09:00:01"
              demo_created 1%positive _ Hlog) as (suffix & Hgrow & Hlen).
  exists suffix. split; [exact Hlog|]. split; [exact Hgrow|exact Hlen].
Defined.

(** X6: in a reachable store a successful call on a case appends exactly
    one entry to the audit list of that case, stamped with the time of the
    call and named after the tool, and changes no other list object. *)
Theorem successful_call_is_audited_once
    (call : Call) (i ts : string) (st : Store) (r : pyval) :
  reachable st →
  call_case_id call = Some i →
  snd (exec call ts st) = inr r →
  ∃ c log details,
    cases st !! i = Some c
    ∧ heap st !! audit c = Some log
    ∧ heap (fst (exec call ts st)) !! audit c
      = Some (log ++ [audit_entry ts (call_event call) details])
    ∧ ∀ l, l ≠ audit c → heap (fst (exec call ts st)) !! l = heap st !! l.
Proof.
  intros Hst Hcall Hok. destruct (reachable_wf st Hst) as (_ & _ & Hcases).
  destruct (cases st !! i) as [c|] eqn:Hi;
    [|by rewrite (exec_unknown_case _ _ _ _ Hcall Hi) in Hok].
  destruct (Hcases i c Hi) as (_ & _ & ts0 & rest & Hlog).
  destruct (exec_on_case call i ts st c Hcall Hi)
    as [[e' Hrun]|(c' & d & r' & Hrun & _)]; rewrite Hrun in *; [done|].
  exists c, (created_entry ts0 :: rest), d. simpl.
  split; [done|]. split; [done|]. split.
  - by rewrite lookup_alter_eq, Hlog.
  - intros l Hne. by rewrite lookup_alter_ne.
Qed.

Lemma successful_call_is_audited_once_witness :
  ∃ c log details,
    cases demo_extracted !! "CASE-0001" = Some c
    ∧ heap demo_extracted !! audit c = Some log
    ∧ heap (fst (exec (CNotifyCitizen "CASE-0001") "2025-10-02T12:00:00"
                   demo_extracted)) !! audit c
      = Some (log ++ [audit_entry "2025-10-02T12:00:00" "notify_citizen" details]).
Proof.
  destruct (successful_call_is_audited_once (CNotifyCitizen "CASE-0001")
              "CASE-0001" "2025-10-02T12:00:00" demo_extracted
              (PDict [("status", PStr "sent"); ("email", PStr "citizen@example.com")])
              reachable_demo_extracted eq_refl)
    as (c & log & details & Hc & Hlog & Hgrow & _); [vm_compute; reflexivity|].
  by exists c, log, details.
Defined.

(** X7: in a reachable store a call on one case leaves every other case
    alone: its record is the same and so is its audit list. *)
Theorem call_leaves_other_cases_alone
    (call : Call) (i j ts : string) (st : Store) (cj : Case) :
  reachable st →
  call_case_id call = Some i →
  j ≠ i →
  cases st !! j = Some cj →
  cases (fst (exec call ts st)) !! j = Some cj
  ∧ heap (fst (exec call ts st)) !! audit cj = heap st !! audit cj.
Proof.
  intros Hst Hcall Hne Hj. destruct (reachable_wf st Hst) as (_ & Hinj & _).
  destruct (cases st !! i) as [c|] eqn:Hi;
    [|by rewrite (exec_unknown_case _ _ _ _ Hcall Hi)].
  destruct (exec_on_case call i ts st c Hcall Hi)
    as [[e' ->]|(c' & d & r' & -> & _)]; [done|]. simpl.
  split; [by rewrite lookup_insert_ne|].
  rewrite lookup_alter_ne; [done|]. intros Heq. apply Hne.
  by apply (Hinj j i cj c).
Qed.

Lemma reachable_demo_two_cases : reachable demo_two_cases.
Proof. apply reachable_step, reachable_demo_overridden. Qed.

Lemma call_leaves_other_cases_alone_witness :
  ∃ c1,
    cases demo_two_cases !! "CASE-0001" = Some c1
    ∧ cases (fst (exec (CRunOcrExtract "CASE-0002") "2025-10-03T08:00:01"
                    demo_two_cases)) !! "CASE-0001" = Some c1.
Proof.
  eexists.
  assert (cases demo_two_cases !! "CASE-0001" = Some _) as Hc
    by (vm_compute; reflexivity).
  split; [exact Hc|].
  apply (call_leaves_other_cases_alone (CRunOcrExtract "CASE-0002") "CASE-0002"
           "CASE-0001" "2025-10-03T08:00:01" demo_two_cases _
           reachable_demo_two_cases eq_refl); [discriminate|exact Hc].
Defined.

(** ** What no tool ever changes *)

(** X8: in a reachable store no call removes a case, and no call changes
    the intake data, the status or the audit list reference of a case. *)
Theorem intake_status_and_log_identity_are_immutable
    (call : Call) (j ts : string) (st : Store) (c : Case) :
  reachable st →
  cases st !! j = Some c →
  ∃ c',
    cases (fst (exec call ts st)) !! j = Some c'
    ∧ data c' = data c
    ∧ status c' = status c
    ∧ audit c' = audit c.
Proof.
  intros Hst Hj. destruct (reachable_wf st Hst) as (Hids & _ & _).
  destruct (call_case_id call) as [i|] eqn:Hcall.
  - destruct (cases st !! i) as [ci|] eqn:Hi;
      [|rewrite (exec_unknown_case _ _ _ _ Hcall Hi); by exists c].
    destruct (exec_on_case call i ts st ci Hcall Hi)
      as [[e' ->]|(c' & d & r' & -> & Hstep)]; [by exists c|]. simpl.
    destruct (case_step_keeps _ _ _ Hstep) as (Hd & Ha & Hs).
    destruct (decide (i = j)) as [->|Hne].
    + exists c'. rewrite lookup_insert_eq. by simplify_eq.
    + exists c. by rewrite lookup_insert_ne.
  - destruct call; try done. simpl. rewrite ingest_case_eq. simpl.
    exists c. rewrite lookup_insert_ne; [done|]. intros Heq.
    by rewrite <-Heq, (new_case_id_fresh st Hids) in Hj.
Qed.

Lemma intake_status_and_log_identity_are_immutable_witness :
  ∃ c c',
    cases demo_extracted !! "CASE-0001" = Some c
    ∧ cases demo_overridden !! "CASE-0001" = Some c'
    ∧ data c' = data c.
Proof.
  eexists.
  assert (cases demo_extracted !! "CASE-0001" = Some _) as Hc
    by (vm_compute; reflexivity).
  destruct (intake_status_and_log_identity_are_immutable
              (CResolveHitl "CASE-0001" CORRECTED_ADDRESS) "CASE-0001"
              "2025-10-02T09:05:00" demo_extracted _ reachable_demo_extracted Hc)
    as (c' & Hc' & Hd & _).
  exists c'. split; [exact Hc|]. split; [exact Hc'|exact Hd].
Defined.

(** X9: in a reachable store the extraction of a case is written by
    [run_ocr_extract] only and its overrides by
    [resolve_hitl_update_address] only; a call to any other tool returns
    every case record unchanged. *)
Theorem only_extraction_and_override_write_records
    (call : Call) (j ts : string) (st : Store) (c c' : Case) :
  reachable st →
  cases st !! j = Some c →
  cases (fst (exec call ts st)) !! j = Some c' →
  (call_event call ≠ "run_ocr_extract" → ocr c' = ocr c)
  ∧ (call_event call ≠ "resolve_hitl_update_address" → overrides c' = overrides c)
  ∧ (call_event call ≠ "run_ocr_extract" →
     call_event call ≠ "resolve_hitl_update_address" → c' = c).
Proof.
  intros Hst Hj Hj'. destruct (reachable_wf st Hst) as (Hids & _ & _).
  destruct (call_case_id call) as [i|] eqn:Hcall.
  - destruct (cases st !! i) as [ci|] eqn:Hi;
      [|rewrite (exec_unknown_case _ _ _ _ Hcall Hi) in Hj'; simpl in Hj';
        simplify_eq; by repeat split].
    destruct (exec_on_case call i ts st ci Hcall Hi)
      as [[e' Hrun]|(c'' & d & r' & Hrun & Hstep)]; rewrite Hrun in Hj';
      simpl in Hj'; [simplify_eq; by repeat split|].
    apply lookup_insert_Some in Hj' as [[<- <-]|[Hne Hj']];
      [|simplify_eq; by repeat split].
    simplify_eq.
    destruct call; simpl in *; simplify_eq; try done.
    + destruct Hstep as (? & ? & ? & ? & ? & _ & _ & _ & _ & _ & ->). done.
    + destruct Hstep as [_ ->]. done.
  - destruct call; try done. simpl in *. rewrite ingest_case_eq in Hj'.
    simpl in Hj'. rewrite lookup_insert_ne in Hj'; [simplify_eq; by repeat split|].
    intros Heq. by rewrite <-Heq, (new_case_id_fresh st Hids) in Hj.
Qed.

Lemma only_extraction_and_override_write_records_witness :
  ∃ c c',
    cases demo_extracted !! "CASE-0001" = Some c
    ∧ cases demo_overridden !! "CASE-0001" = Some c'
    ∧ ocr c' = ocr c.
Proof.
  eexists _, _.
  assert (cases demo_extracted !! "CASE-0001" = Some _) as Hc
    by (vm_compute; reflexivity).
  assert (cases demo_overridden !! "CASE-0001" = Some _) as Hc'
    by (vm_compute; reflexivity).
  split; [exact Hc|]. split; [exact Hc'|].
  apply (only_extraction_and_override_write_records
           (CResolveHitl "CASE-0001" CORRECTED_ADDRESS) "CASE-0001"
           "2025-10-02T09:05:00" demo_extracted _ _ reachable_demo_extracted Hc Hc').
  discriminate.
Defined.

(** ** The shape of extracted cases *)

Lemma reachable_case_wf st i c :
  reachable st → cases st !! i = Some c → case_wf c.
Proof.
  intros Hst Hi. destruct (reachable_wf st Hst) as (_ & _ & Hcases).
  by destruct (Hcases i c Hi) as (_ & Hwf & _).
Qed.

(** X10: in a reachable store the extraction of a case mirrors its intake:
    every extracted field is the intake value it was read from, the
    landlord signature flag is true, and the confidences are 0.73 for the
    new address and 0.9 for the move-in date.  Overrides never change
    it. *)
Theorem extraction_mirrors_intake (st : Store) (i : string) (c : Case) (o : OCR) :
  reachable st →
  cases st !! i = Some c →
  ocr c = Some o →
  dict_get "citizen_name" (fields o) = dict_get "citizen_name" (data c)
  ∧ dict_get "citizen_dob" (fields o) = dict_get "citizen_dob" (data c)
  ∧ dict_get "old_address" (fields o) = dict_get "old_address" (data c)
  ∧ dict_get "new_address" (fields o) = dict_get "new_address_raw" (data c)
  ∧ dict_get "move_in_date" (fields o) = dict_get "move_in_date_raw" (data c)
  ∧ dict_get "landlord_signature_found" (fields o) = Some (PBool true)
  ∧ confidence o = [("new_address", 0.73%float); ("move_in_date", 0.9%float)].
Proof.
  intros Hst Hi Ho. destruct (reachable_wf st Hst) as (_ & _ & Hcases).
  destruct (Hcases i c Hi) as (_ & Hwf & _). unfold case_wf in Hwf.
  rewrite Ho in Hwf.
  destruct Hwf as (name & dob & old & new & move_in & w
                   & -> & -> & -> & -> & -> & -> & _).
  by repeat split.
Qed.

Lemma extraction_mirrors_intake_witness :
  ∃ c o,
    cases demo_overridden !! "CASE-0001" = Some c
    ∧ ocr c = Some o
    ∧ dict_get "new_address" (fields o) = Some (PStr RAW_ADDRESS).
Proof.
  eexists _, _.
  assert (cases demo_overridden !! "CASE-0001" = Some _) as Hc
    by (vm_compute; reflexivity).
  split; [exact Hc|]. split; [reflexivity|].
  destruct (extraction_mirrors_intake demo_overridden "CASE-0001" _ _
              reachable_demo_overridden Hc eq_refl) as (_ & _ & _ & Hnew & _).
  rewrite Hnew. reflexivity.
Defined.

(** X11: in a reachable store the working view of an extracted case has
    exactly the keys [new_address] and [move_in_date], in that order; the
    move-in date is always the extracted one; the new address is the
    extracted one or the current override, and it is the extracted one
    whenever the case has no override. *)
Theorem working_view_of_extracted_case
    (st : Store) (i : string) (c : Case) (o : OCR) :
  reachable st →
  cases st !! i = Some c →
  ocr c = Some o →
  ∃ w m,
    working c = [("new_address", w); ("move_in_date", m)]
    ∧ dict_get "move_in_date" (fields o) = Some m
    ∧ (dict_get "new_address" (fields o) = Some w
       ∨ dict_get "new_address" (overrides c) = Some w)
    ∧ (overrides c = [] → dict_get "new_address" (fields o) = Some w).
Proof.
  intros Hst Hi Ho. destruct (reachable_wf st Hst) as (_ & _ & Hcases).
  destruct (Hcases i c Hi) as (_ & Hwf & _). unfold case_wf in Hwf.
  rewrite Ho in Hwf.
  destruct Hwf as (name & dob & old & new & move_in & w
                   & _ & _ & _ & _ & _ & -> & Hw & Hov).
  exists w, move_in. split; [done|]. split; [done|].
  destruct Hov as [[Hov ->]|(v & Hov & [->| ->])]; rewrite Hov; simpl.
  - split; [by left|done].
  - split; [by right|done].
  - split; [by left|done].
Qed.

Lemma working_view_of_extracted_case_witness :
  ∃ c w m,
    cases demo_reextracted !! "CASE-0001" = Some c
    ∧ working c = [("new_address", w); ("move_in_date", m)].
Proof.
  eexists.
  assert (cases demo_reextracted !! "CASE-0001" = Some _) as Hc
    by (vm_compute; reflexivity).
  destruct (working_view_of_extracted_case demo_reextracted "CASE-0001" _ _
              reachable_demo_reextracted Hc eq_refl) as (w & m & Hw & _).
  exists w, m. split; [exact Hc|exact Hw].
Defined.

(** X12: in a reachable store the overrides of a case are empty or hold
    the single key [new_address] with a string value; a case on which
    extraction has not run has no override and an empty working view. *)
Theorem overrides_hold_only_the_new_address (st : Store) (i : string) (c : Case) :
  reachable st →
  cases st !! i = Some c →
  (overrides c = [] ∨ ∃ v, overrides c = [("new_address", PStr v)])
  ∧ (ocr c = None → overrides c = [] ∧ working c = []).
Proof.
  intros Hst Hi. destruct (reachable_wf st Hst) as (_ & _ & Hcases).
  destruct (Hcases i c Hi) as (_ & Hwf & _). unfold case_wf in Hwf.
  destruct (ocr c) as [o|].
  - destruct Hwf as (name & dob & old & new & move_in & w
                     & _ & _ & _ & _ & _ & _ & _ & Hov).
    split; [|done]. destruct Hov as [[Hov _]|(v & Hov & _)]; [by left|].
    right. by exists v.
  - destruct Hwf as [Hw Hov]. split; [by left|done].
Qed.

Lemma overrides_hold_only_the_new_address_witness :
  ∃ c,
    cases demo_overridden !! "CASE-0001" = Some c
    ∧ (overrides c = [] ∨ ∃ v, overrides c = [("new_address", PStr v)]).
Proof.
  eexists.
  assert (cases demo_overridden !! "CASE-0001" = Some _) as Hc
    by (vm_compute; reflexivity).
  split; [exact Hc|].
  apply (overrides_hold_only_the_new_address demo_overridden "CASE-0001" _
           reachable_demo_overridden Hc).
Defined.

(** ** Completeness check and address canonicalisation *)

(** X13: in a reachable store the completeness check of an extracted case
    always answers "hitl_required" with low-confidence fields
    [["new_address"]]: the confidences are fixed at extraction, so an
    officer's override does not clear the flag. *)
Theorem completeness_check_never_clears
    (st : Store) (i ts : string) (c : Case) :
  reachable st →
  cases st !! i = Some c →
  is_Some (ocr c) →
  snd (check_completeness i ts st)
  = inr (PDict [ ("status", PStr "hitl_required");
                 ("low_conf_fields", PList [PStr "new_address"]) ]).
Proof.
  intros Hst Hi [o Ho].
  pose proof (reachable_case_wf st i c Hst Hi) as Hwf. unfold case_wf in Hwf.
  rewrite Ho in Hwf.
  destruct Hwf as (name & dob & old & new & move_in & w
                   & _ & _ & _ & _ & _ & -> & _).
  by rewrite (check_completeness_eq _ _ _ _ _ Hi Ho).
Qed.

Lemma completeness_check_never_clears_witness :
  snd (check_completeness "CASE-0001" "2025-10-02T09:05:01" demo_overridden)
  = inr (PDict [ ("status", PStr "hitl_required");
                 ("low_conf_fields", PList [PStr "new_address"]) ]).
Proof.
  assert (cases demo_overridden !! "CASE-0001" = Some _) as Hc
    by (vm_compute; reflexivity).
  apply (completeness_check_never_clears demo_overridden "CASE-0001"
           "2025-10-02T09:05:01" _ reachable_demo_overridden Hc).
  by eexists.
Defined.

(** X14: in a reachable store, on a case on which extraction has not run,
    the completeness check raises [TypeError] (the extraction is [None])
    and address canonicalisation raises [KeyError] on [new_address]; both
    leave the store as it was. *)
Theorem checks_before_extraction_raise (st : Store) (i ts : string) (c : Case) :
  reachable st →
  cases st !! i = Some c →
  ocr c = None →
  check_completeness i ts st
  = (st, inl (TypeError "'NoneType' object is not subscriptable"))
  ∧ canonicalize_address i ts st = (st, inl (KeyError "new_address")).
Proof.
  intros Hst Hi Ho.
  pose proof (reachable_case_wf st i c Hst Hi) as Hwf. unfold case_wf in Hwf.
  rewrite Ho in Hwf. destruct Hwf as [Hw _]. split.
  - unfold check_completeness. run_with Hi. by rewrite Ho.
  - unfold canonicalize_address. run_with Hi. by rewrite Hw.
Qed.

Lemma checks_before_extraction_raise_witness :
  canonicalize_address "CASE-0001" "2025-10-02T09:00:01" demo_created
  = (demo_created, inl (KeyError "new_address")).
Proof.
  assert (cases demo_created !! "CASE-0001" = Some _) as Hc
    by (vm_compute; reflexivity).
  apply (checks_before_extraction_raise demo_created "CASE-0001"
           "2025-10-02T09:00:01" _ reachable_demo_created Hc eq_refl).
Defined.

(** ** Intake completeness *)

(** X15: [run_ocr_extract] reads the five intake keys in a fixed order and
    raises [KeyError] on the first one that is missing, leaving the store
    as it was. *)
Theorem extraction_raises_on_first_missing_key
    (st : Store) (i ts : string) (c : Case) (pre : list string) (k : string)
    (post : list string) :
  cases st !! i = Some c →
  extraction_keys = pre ++ k :: post →
  Forall (λ k', is_Some (dict_get k' (data c))) pre →
  dict_get k (data c) = None →
  run_ocr_extract i ts st = (st, inl (KeyError k)).
Proof. apply run_ocr_extract_missing. Qed.

Lemma extraction_raises_on_first_missing_key_witness :
  run_ocr_extract "CASE-0001" "2025-10-04T08:00:01" demo_partial
  = (demo_partial, inl (KeyError "new_address_raw")).
Proof.
  eapply (extraction_raises_on_first_missing_key demo_partial "CASE-0001"
            "2025-10-04T08:00:01" _
            ["citizen_name"; "citizen_dob"; "old_address"] "new_address_raw"
            ["move_in_date_raw"]).
  - vm_compute. reflexivity.
  - reflexivity.
  - repeat constructor; by eexists.
  - reflexivity.
Defined.

(** X16: on an existing case [run_ocr_extract] succeeds exactly when the
    intake has all five keys it reads; no other condition on the case or
    the store matters. *)
Theorem extraction_succeeds_iff_intake_complete
    (st : Store) (i ts : string) (c : Case) :
  cases st !! i = Some c →
  ((∃ r, snd (run_ocr_extract i ts st) = inr r)
   ↔ Forall (λ k, is_Some (dict_get k (data c))) extraction_keys).
Proof.
  intros Hi. split.
  - intros [r Hr].
    destruct (exec_on_case (CRunOcrExtract i) i ts st c eq_refl Hi)
      as [[e Hrun]|(c' & d & r' & _ & Hstep)]; simpl in *.
    + by rewrite Hrun in Hr.
    + destruct Hstep as (name & dob & old & new & move_in
                         & H1 & H2 & H3 & H4 & H5 & _).
      unfold extraction_keys. repeat constructor; by eexists.
  - unfold extraction_keys. intros Hall.
    apply Forall_cons in Hall as [[name H1] Hall].
    apply Forall_cons in Hall as [[dob H2] Hall].
    apply Forall_cons in Hall as [[old H3] Hall].
    apply Forall_cons in Hall as [[new H4] Hall].
    apply Forall_cons in Hall as [[move_in H5] _].
    rewrite (run_ocr_extract_eq _ _ _ _ _ _ _ _ _ Hi H1 H2 H3 H4 H5).
    by eexists.
Qed.

Lemma extraction_succeeds_iff_intake_complete_witness :
  ∃ r, snd (run_ocr_extract "CASE-0001" "2025-10-02T09:00:01" demo_created) = inr r.
Proof.
  assert (cases demo_created !! "CASE-0001" = Some _) as Hc
    by (vm_compute; reflexivity).
  apply (extraction_succeeds_iff_intake_complete demo_created "CASE-0001"
           "2025-10-02T09:00:01" _ Hc).
  unfold extraction_keys. repeat constructor; by eexists.
Defined.

(** X17: running extraction again on a case that has not been touched in
    between returns the same result and leaves every case record as the
    first run left it; only the audit list grows. *)
Theorem reextraction_is_idempotent
    (st : Store) (i ts1 ts2 : string) (c : Case) (r : pyval) :
  cases st !! i = Some c →
  snd (run_ocr_extract i ts1 st) = inr r →
  snd (run_ocr_extract i ts2 (fst (run_ocr_extract i ts1 st))) = inr r
  ∧ cases (fst (run_ocr_extract i ts2 (fst (run_ocr_extract i ts1 st))))
    = cases (fst (run_ocr_extract i ts1 st)).
Proof.
  intros Hi Hr.
  destruct (exec_on_case (CRunOcrExtract i) i ts1 st c eq_refl Hi)
    as [[e Hrun]|(c' & d & r' & _ & Hstep)]; simpl in *;
    [by rewrite Hrun in Hr|].
  destruct Hstep as (name & dob & old & new & move_in
                     & H1 & H2 & H3 & H4 & H5 & _).
  rewrite (run_ocr_extract_eq _ _ _ _ _ _ _ _ _ Hi H1 H2 H3 H4 H5) in *.
  simpl in Hr. simplify_eq. simpl fst.
  set (c1 := extracted_case c name dob old new move_in).
  set (st1 := appended _ _ _).
  assert (cases st1 !! i = Some c1) as Hi1 by (simpl; apply lookup_insert_eq).
  rewrite (run_ocr_extract_eq st1 i c1 ts2 name dob old new move_in Hi1 H1 H2 H3 H4 H5).
  split; [done|]. simpl. by rewrite insert_insert_eq.
Qed.

Lemma reextraction_is_idempotent_witness :
  cases (fst (run_ocr_extract "CASE-0001" "2025-10-02T09:00:02" demo_extracted))
  = cases demo_extracted.
Proof.
  assert (cases demo_created !! "CASE-0001" = Some _) as Hc
    by (vm_compute; reflexivity).
  eapply (reextraction_is_idempotent demo_created "CASE-0001"
            "2025-10-02T09:00:01" "2025-10-02T09:00:02" _ _ Hc).
  vm_compute. reflexivity.
Defined.

(** ** What a tool decides from *)







(** X20: the seven steps that only audit (identity match, landlord
    validation, business rules, registry update, certificate, notification,
    close) succeed on every existing case, whether or not it has been
    extracted, and write no case record. *)
Theorem unconditional_steps_always_succeed
    (call : Call) (i ts : string) (st : Store) (c : Case) :
  unconditional_step call = true →
  call_case_id call = Some i →
  cases st !! i = Some c →
  (∃ r, snd (exec call ts st) = inr r)
  ∧ cases (fst (exec call ts st)) = cases st.
Proof.
  intros Hstep Hcall Hi.
  destruct call; simpl in Hstep, Hcall; simplify_eq; simpl;
    unfold match_registry_identity, validate_landlord_confirmation,
      check_business_rules, update_registry, generate_certificate,
      notify_citizen, close_case_and_audit;
    cbv zeta; run_with Hi; cbv zeta; run_with Hi; (split; [by eexists|done]).
Qed.

Lemma unconditional_steps_always_succeed_witness :
  ∃ r, snd (exec (CUpdateRegistry "CASE-0001") "2025-10-02T09:00:01" demo_created)
       = inr r.
Proof.
  assert (cases demo_created !! "CASE-0001" = Some _) as Hc
    by (vm_compute; reflexivity).
  apply (unconditional_steps_always_succeed (CUpdateRegistry "CASE-0001")
           "CASE-0001" "2025-10-02T09:00:01" demo_created _ eq_refl eq_refl Hc).
Defined.

(** ** Downstream of an override *)

(** X21: after a successful override the canonicalisation step reads the
    corrected address: its [input] is the officer's value, while the
    override call itself returned the address it replaced. *)
Theorem canonicalize_reads_the_override
    (st : Store) (i v ts1 ts2 : string) (c : Case) (old : pyval) :
  cases st !! i = Some c →
  dict_get "new_address" (working c) = Some old →
  ∃ st1 r1 st2 canonical,
    resolve_hitl_update_address i v ts1 st = (st1, inr (PDict r1))
    ∧ dict_get "old_address" r1 = Some old
    ∧ dict_get "new_address" r1 = Some (PStr v)
    ∧ canonicalize_address i ts2 st1
      = (st2, inr (PDict [ ("status", PStr "ok");
                           ("canonical_address", PDict canonical);
                           ("hitl_required", PBool false) ]))
    ∧ dict_get "input" canonical = Some (PStr v).
Proof.
  intros Hi Hold.
  pose proof (resolve_hitl_update_address_eq st i c v ts1 old Hi Hold) as Hr1.
  set (st1 := appended _ _ _) in Hr1.
  assert (cases st1 !! i = Some (overridden_case c v)) as Hi1
    by (simpl; apply lookup_insert_eq).
  eexists st1, _, _, _. split; [exact Hr1|].
  split; [reflexivity|]. split; [reflexivity|].
  unfold canonicalize_address. run_with Hi1.
  change (working (overridden_case c v))
    with (dict_set "new_address" (PStr v) (working c)).
  rewrite dict_get_set_eq, bind_lift_Some. cbv zeta. run_with Hi1.
  split; reflexivity.
Qed.

Lemma canonicalize_reads_the_override_witness :
  ∃ st1 r1 st2 canonical,
    resolve_hitl_update_address "CASE-0001" CORRECTED_ADDRESS "2025-10-02T09:05:00"
      demo_extracted = (st1, inr (PDict r1))
    ∧ canonicalize_address "CASE-0001" "2025-10-02T09:06:00" st1
      = (st2, inr (PDict [ ("status", PStr "ok");
                           ("canonical_address", PDict canonical);
                           ("hitl_required", PBool false) ]))
    ∧ dict_get "input" canonical = Some (PStr CORRECTED_ADDRESS).
Proof.
  assert (cases demo_extracted !! "CASE-0001" = Some _) as Hc
    by (vm_compute; reflexivity).
  destruct (canonicalize_reads_the_override demo_extracted "CASE-0001"
              CORRECTED_ADDRESS "2025-10-02T09:05:00" "2025-10-02T09:06:00"
              _ _ Hc eq_refl)
    as (st1 & r1 & st2 & canonical & H1 & _ & _ & H2 & H3).
  by exists st1, r1, st2, canonical.
Defined.

(** ** The audit lists of reachable stores *)

(** X22: in a reachable store the audit list of every case is non-empty
    and starts with the "ingest_case" entry written when the case was
    created. *)
Theorem audit_list_starts_with_creation (st : Store) (i : string) (c : Case) :
  reachable st →
  cases st !! i = Some c →
  ∃ ts rest,
    heap st !! audit c
    = Some (audit_entry ts "ingest_case" (PStr "Case created with citizen data.")
              :: rest).
Proof.
  intros Hst Hi. destruct (reachable_wf st Hst) as (_ & _ & Hcases).
  by destruct (Hcases i c Hi) as (_ & _ & Hlog).
Qed.

Lemma audit_list_starts_with_creation_witness :
  ∃ c ts rest,
    cases demo_reextracted !! "CASE-0001" = Some c
    ∧ heap demo_reextracted !! audit c
      = Some (audit_entry ts "ingest_case" (PStr "Case created with citizen data.")
                :: rest).
Proof.
  eexists.
  assert (cases demo_reextracted !! "CASE-0001" = Some _) as Hc
    by (vm_compute; reflexivity).
  destruct (audit_list_starts_with_creation demo_reextracted "CASE-0001" _
              reachable_demo_reextracted Hc) as (ts & rest & Hlog).
  exists ts, rest. split; [exact Hc|exact Hlog].
Defined.

(** X23: in a reachable store no two cases share an audit list object:
    cases with the same audit list reference are the same case. *)
Theorem audit_lists_are_not_shared
    (st : Store) (i j : string) (ci cj : Case) :
  reachable st →
  cases st !! i = Some ci →
  cases st !! j = Some cj →
  audit ci = audit cj →
  i = j.
Proof.
  intros Hst. destruct (reachable_wf st Hst) as (_ & Hinj & _). apply Hinj.
Qed.

Lemma audit_lists_are_not_shared_witness :
  ∃ c1 c2,
    cases demo_two_cases !! "CASE-0001" = Some c1
    ∧ cases demo_two_cases !! "CASE-0002" = Some c2
    ∧ audit c1 ≠ audit c2.
Proof.
  eexists _, _.
  assert (cases demo_two_cases !! "CASE-0001" = Some _) as H1
    by (vm_compute; reflexivity).
  assert (cases demo_two_cases !! "CASE-0002" = Some _) as H2
    by (vm_compute; reflexivity).
  split; [exact H1|]. split; [exact H2|]. intros Heq.
  pose proof (audit_lists_are_not_shared demo_two_cases "CASE-0001" "CASE-0002"
                _ _ reachable_demo_two_cases H1 H2 Heq) as Hij.
  discriminate Hij.
Defined.

(** ** Certificate paths *)

Lemma string_length_app (a b : string) :
  String.length (a +:+ b) = String.length a + String.length b.
Proof. induction a as [|x a IH]; simpl; [done|by rewrite IH]. Qed.

Lemma string_app_inj_r (a b s : string) : a +:+ s = b +:+ s → a = b.
Proof.
  revert b. induction a as [|x a IH]; intros [|y b] Heq; simpl in Heq.
  - done.
  - apply (f_equal String.length) in Heq.
    rewrite !string_length_app in Heq. simpl in Heq. lia.
  - apply (f_equal String.length) in Heq.
    rewrite !string_length_app in Heq. simpl in Heq. lia.
  - injection Heq as -> Heq. f_equal. by apply IH.
Qed.

(** X24: the certificate path embeds the case identifier between "/tmp/"
    and "_meldebescheinigung.pdf", so certificates of different cases never
    get the same path. *)
Theorem certificate_paths_never_collide
    (st st' : Store) (i j ts ts' : string) (ci cj : Case) :
  cases st !! i = Some ci →
  cases st' !! j = Some cj →
  snd (generate_certificate i ts st) = snd (generate_certificate j ts' st') →
  i = j.
Proof.
  intros Hi Hj. unfold generate_certificate. cbv zeta. run_with Hi. run_with Hj.
  simpl. intros Heq. simplify_eq.
  by apply string_app_inj_r with "_meldebescheinigung.pdf".
Qed.

Lemma certificate_paths_never_collide_witness :
  snd (generate_certificate "CASE-0001" "2025-10-03T09:00:00" demo_two_cases)
  ≠ snd (generate_certificate "CASE-0002" "2025-10-03T09:00:00" demo_two_cases).
Proof.
  assert (cases demo_two_cases !! "CASE-0001" = Some _) as H1
    by (vm_compute; reflexivity).
  assert (cases demo_two_cases !! "CASE-0002" = Some _) as H2
    by (vm_compute; reflexivity).
  intros Heq.
  pose proof (certificate_paths_never_collide demo_two_cases demo_two_cases
                "CASE-0001" "CASE-0002" "2025-10-03T09:00:00" "2025-10-03T09:00:00"
                _ _ H1 H2 Heq) as Hij.
  discriminate Hij.
Defined.
